(** * Blockchain-POA: the ledger engine of [blockchain.py]

    A shallow embedding of the [Blockchain] class (chain of blocks, pool of
    pending session records, hash linking, proof search) together with the
    library functions it calls: [hashlib.sha256], [json.dumps(..,
    sort_keys=True)], [str.encode] and integer formatting.

    Conventions.
    - A Python [str] is a [string]; one character stands for one code point
      (code points up to U+00FF).
    - A Python [int] is a [Z].
    - A Python [float] only ever reaches [json.dumps]; it is carried as the
      text [json.dumps] prints for it.
    - Python list objects that are mutated in place ([current_data]) live in
      an explicit store and are named by their location, so that aliasing
      between the pool and a sealed block is visible. *)

From Stdlib Require Import ZArith List String Ascii DecimalString Lia.
From Stdlib Require Import Permutation OrderedTypeEx.
From Stdlib Require Import DecimalFacts DecimalPos DecimalZ.
From Stdlib.Strings Require Import Byte.
From stdpp Require Import base list strings.

Local Open Scope Z_scope.

(** ** [hashlib.sha256]: SHA-256 over byte strings (FIPS 180-4) *)

Module SHA256.

Definition mask32 : Z := 0xFFFFFFFF.

Definition add32 (x y : Z) : Z := Z.land (x + y) mask32.

Definition rotr (n x : Z) : Z :=
  Z.lor (Z.shiftr x n) (Z.land (Z.shiftl x (32 - n)) mask32).

Definition not32 (x : Z) : Z := Z.lxor x mask32.

Definition Ch (x y z : Z) : Z :=
  Z.lxor (Z.land x y) (Z.land (not32 x) z).

Definition Maj (x y z : Z) : Z :=
  Z.lxor (Z.lxor (Z.land x y) (Z.land x z)) (Z.land y z).

Definition bsig0 (x : Z) : Z :=
  Z.lxor (Z.lxor (rotr 2 x) (rotr 13 x)) (rotr 22 x).

Definition bsig1 (x : Z) : Z :=
  Z.lxor (Z.lxor (rotr 6 x) (rotr 11 x)) (rotr 25 x).

Definition ssig0 (x : Z) : Z :=
  Z.lxor (Z.lxor (rotr 7 x) (rotr 18 x)) (Z.shiftr x 3).

Definition ssig1 (x : Z) : Z :=
  Z.lxor (Z.lxor (rotr 17 x) (rotr 19 x)) (Z.shiftr x 10).

(** Round constants: the first 32 bits of the fractional parts of the cube
    roots of the first 64 primes. *)
Definition round_constants : list Z :=
  [ 0x428A2F98; 0x71374491; 0xB5C0FBCF; 0xE9B5DBA5;
    0x3956C25B; 0x59F111F1; 0x923F82A4; 0xAB1C5ED5;
    0xD807AA98; 0x12835B01; 0x243185BE; 0x550C7DC3;
    0x72BE5D74; 0x80DEB1FE; 0x9BDC06A7; 0xC19BF174;
    0xE49B69C1; 0xEFBE4786; 0x0FC19DC6; 0x240CA1CC;
    0x2DE92C6F; 0x4A7484AA; 0x5CB0A9DC; 0x76F988DA;
    0x983E5152; 0xA831C66D; 0xB00327C8; 0xBF597FC7;
    0xC6E00BF3; 0xD5A79147; 0x06CA6351; 0x14292967;
    0x27B70A85; 0x2E1B2138; 0x4D2C6DFC; 0x53380D13;
    0x650A7354; 0x766A0ABB; 0x81C2C92E; 0x92722C85;
    0xA2BFE8A1; 0xA81A664B; 0xC24B8B70; 0xC76C51A3;
    0xD192E819; 0xD6990624; 0xF40E3585; 0x106AA070;
    0x19A4C116; 0x1E376C08; 0x2748774C; 0x34B0BCB5;
    0x391C0CB3; 0x4ED8AA4A; 0x5B9CCA4F; 0x682E6FF3;
    0x748F82EE; 0x78A5636F; 0x84C87814; 0x8CC70208;
    0x90BEFFFA; 0xA4506CEB; 0xBEF9A3F7; 0xC67178F2 ].

(** The eight working variables [a..h], also the running digest. *)
Record regs := Regs { ra : Z; rb : Z; rc : Z; rd : Z;
                      re : Z; rf : Z; rg : Z; rh : Z }.

(** Initial digest: fractional parts of the square roots of the first
    eight primes. *)
Definition initial_digest : regs :=
  Regs 0x6A09E667 0xBB67AE85 0x3C6EF372 0xA54FF53A
       0x510E527F 0x9B05688C 0x1F83D9AB 0x5BE0CD19.

(** Padding: a [0x80] byte, zero bytes up to 56 modulo 64, then the bit
    length as a 64-bit big-endian integer. *)
Definition be_bytes (count : nat) (x : Z) : list Z :=
  map (fun i => Z.land (Z.shiftr x (8 * Z.of_nat i)) 0xFF) (rev (seq 0 count)).

Definition pad (msg : list Z) : list Z :=
  let len := Z.of_nat (length msg) in
  msg ++ [0x80] ++ repeat 0 (Z.to_nat ((55 - len) mod 64))
      ++ be_bytes 8 (8 * len).

Fixpoint words_of_bytes (bs : list Z) : list Z :=
  match bs with
  | b0 :: b1 :: b2 :: b3 :: rest =>
      (Z.shiftl b0 24 + Z.shiftl b1 16 + Z.shiftl b2 8 + b3)
        :: words_of_bytes rest
  | _ => []
  end.

(** The message schedule is grown newest word first: with [ws] holding
    [W(t-1), W(t-2), ...] the next word is
    [ssig1 W(t-2) + W(t-7) + ssig0 W(t-15) + W(t-16)]. *)
Definition next_word (ws : list Z) : Z :=
  add32 (add32 (ssig1 (nth 1 ws 0)) (nth 6 ws 0))
        (add32 (ssig0 (nth 14 ws 0)) (nth 15 ws 0)).

Fixpoint extend (n : nat) (ws : list Z) : list Z :=
  match n with
  | O => ws
  | S n' => extend n' (next_word ws :: ws)
  end.

Definition schedule (block : list Z) : list Z :=
  rev (extend 48 (rev block)).

Definition round (r : regs) (kw : Z * Z) : regs :=
  let t1 := add32 (add32 (add32 (rh r) (bsig1 (re r)))
                         (add32 (Ch (re r) (rf r) (rg r)) (fst kw)))
                  (snd kw) in
  let t2 := add32 (bsig0 (ra r)) (Maj (ra r) (rb r) (rc r)) in
  Regs (add32 t1 t2) (ra r) (rb r) (rc r) (add32 (rd r) t1) (re r) (rf r) (rg r).

Definition compress (H : regs) (block : list Z) : regs :=
  let r := fold_left round (combine round_constants (schedule block)) H in
  Regs (add32 (ra H) (ra r)) (add32 (rb H) (rb r))
       (add32 (rc H) (rc r)) (add32 (rd H) (rd r))
       (add32 (re H) (re r)) (add32 (rf H) (rf r))
       (add32 (rg H) (rg r)) (add32 (rh H) (rh r)).

(** Cut the padded word sequence into 16-word blocks; [n] bounds the
    number of blocks. *)
Fixpoint blocks (n : nat) (ws : list Z) : list (list Z) :=
  match n, ws with
  | S n', _ :: _ => firstn 16 ws :: blocks n' (skipn 16 ws)
  | _, _ => []
  end.

Definition digest_words (msg : list Z) : regs :=
  let ws := words_of_bytes (pad msg) in
  fold_left compress (blocks (length ws) ws) initial_digest.

Definition hex_digit (d : Z) : ascii :=
  ascii_of_N (Z.to_N (if d <? 10 then 48 + d else 87 + d)).

Definition hex_word (x : Z) : string :=
  string_of_list_ascii
    (map (fun i => hex_digit (Z.land (Z.shiftr x (4 * Z.of_nat i)) 0xF))
         (rev (seq 0 8))).

(** [hashlib.sha256(msg).hexdigest()] *)
Definition hexdigest (msg : list byte) : string :=
  let r := digest_words (map (fun b => Z.of_N (Byte.to_N b)) msg) in
  String.concat ""
    (map hex_word [ra r; rb r; rc r; rd r; re r; rf r; rg r; rh r]).

End SHA256.

(** ** Python text: [str(int)] and [str.encode()] *)

(** [str(n)], also what [f'{n}'] prints for an [int]. *)
Definition str_of_int (n : Z) : string := NilZero.string_of_int (Z.to_int n).

Definition byte_of_N (n : N) : byte := default x00 (Byte.of_N n).

(** UTF-8 of one code point below U+0100. *)
Definition utf8_char (c : ascii) : list byte :=
  let n := N_of_ascii c in
  if (n <? 128)%N then [byte_of_N n]
  else [byte_of_N (192 + n / 64); byte_of_N (128 + n mod 64)].

(** [s.encode()] *)
Definition encode (s : string) : list byte :=
  flat_map utf8_char (list_ascii_of_string s).

(** ** [json.dumps(v, sort_keys=True)] *)

#[local] Set Warnings "-register-all".

(** The values [json.dumps] accepts.  A [JDict] keeps its items in insertion
    order, as a Python [dict] does; its keys are strings. *)
Inductive json : Type :=
  | JNull
  | JBool (b : bool)
  | JInt (n : Z)
  | JFloat (repr : string)
  | JStr (s : string)
  | JList (l : list json)
  | JDict (d : list (string * json)).

Definition dict : Type := list (string * json).

Definition dquote : ascii := "034"%char.
Definition backslash : ascii := "092"%char.

Definition hex4 (n : N) : string :=
  string_of_list_ascii
    (map (fun i => SHA256.hex_digit (Z.land (Z.shiftr (Z.of_N n) (4 * Z.of_nat i)) 0xF))
         (rev (seq 0 4))).

(** The escapes of [json.encoder.py_encode_basestring_ascii] (the default
    [ensure_ascii=True]): everything outside [' '..'~'] is escaped. *)
Definition escape_char (c : ascii) : string :=
  let n := N_of_ascii c in
  if (n =? 34)%N then String backslash (String dquote "")
  else if (n =? 92)%N then String backslash (String backslash "")
  else if (n =? 8)%N then String backslash "b"
  else if (n =? 12)%N then String backslash "f"
  else if (n =? 10)%N then String backslash "n"
  else if (n =? 13)%N then String backslash "r"
  else if (n =? 9)%N then String backslash "t"
  else if ((n <? 32) || (126 <? n))%N then String backslash ("u" +:+ hex4 n)
  else String c "".

Definition json_string (s : string) : string :=
  String dquote
    (String.concat "" (map escape_char (list_ascii_of_string s))
       +:+ String dquote "").

(** Items are ordered by key, as [sorted(dct.items())] orders the items of a
    dict (whose keys are pairwise different).  Insertion sort. *)
Fixpoint insert_item {V} (x : string * V) (l : list (string * V))
  : list (string * V) :=
  match l with
  | [] => [x]
  | y :: l' => if String.leb x.1 y.1 then x :: l else y :: insert_item x l'
  end.

Definition sort_items {V} (l : list (string * V)) : list (string * V) :=
  foldr insert_item [] l.

Definition render_item (kv : string * string) : string :=
  json_string kv.1 +:+ ": " +:+ kv.2.

(** The encoder with the default separators [(', ', ': ')].  The values of a
    dict are rendered before its items are put in key order; the order only
    looks at the keys. *)
Fixpoint json_dumps_sorted (v : json) : string :=
  match v with
  | JNull => "null"
  | JBool true => "true"
  | JBool false => "false"
  | JInt n => str_of_int n
  | JFloat repr => repr
  | JStr s => json_string s
  | JList l => "[" +:+ String.concat ", " (map json_dumps_sorted l) +:+ "]"
  | JDict d =>
      "{" +:+ String.concat ", "
                (map render_item
                   (sort_items (map (fun kv => (kv.1, json_dumps_sorted kv.2)) d)))
          +:+ "}"
  end.

(** ** The ledger state *)

(** Location of a Python list object in the store. *)
Abbreviation loc := nat (only parsing).

(** A block: the dict literal built by [new_block].  ['data'] is a reference
    to the list object that was the pool when the block was built. *)
Record Block : Type := mkBlock {
  index : Z;
  timestamp : string;
  data : loc;
  proof : Z;
  previous_hash : string
}.

(** An instance of [Blockchain]: the attributes [chain] and [current_data],
    and the store of the list objects [current_data] has referred to. *)
Record Blockchain : Type := mkBlockchain {
  store : list (list dict);
  chain : list Block;
  current_data : loc
}.

(** The list object at a location. *)
Definition deref (σ : list (list dict)) (l : loc) : list dict :=
  default [] (σ !! l).

(** The pending pool: the contents of [self.current_data]. *)
Definition pool (s : Blockchain) : list dict := deref (store s) (current_data s).

(** The records a block holds: the contents of [block['data']]. *)
Definition block_data (s : Blockchain) (b : Block) : list dict :=
  deref (store s) (data b).

(** The block as [json.dumps] sees it, keys in the order of the dict literal. *)
Definition block_json (σ : list (list dict)) (b : Block) : json :=
  JDict [("index", JInt (index b));
         ("timestamp", JFloat (timestamp b));
         ("data", JList (JDict <$> deref σ (data b)));
         ("proof", JInt (proof b));
         ("previous_hash", JStr (previous_hash b))].

(** ** Exceptions and the state monad of the methods *)

Inductive exn : Type :=
  | KeyError (key : string)
  | IndexError.

Inductive outcome (A : Type) : Type :=
  | Ok (a : A)
  | Raise (e : exn).
Arguments Ok {A} a.
Arguments Raise {A} e.

(** A method body: from the state before to the outcome and the state after.
    A raised exception keeps the state reached when it was raised. *)
Definition M (A : Type) : Type := Blockchain → outcome A * Blockchain.

Definition ret {A} (a : A) : M A := λ s, (Ok a, s).

Definition raise {A} (e : exn) : M A := λ s, (Raise e, s).

Definition bind {A B} (m : M A) (k : A → M B) : M B :=
  λ s, match m s with
       | (Ok a, s') => k a s'
       | (Raise e, s') => (Raise e, s')
       end.

Notation "'let!' x ':=' m 'in' k" := (bind m (λ x, k))
  (at level 10, x name, m at level 100, k at level 200).
Notation "m ';;' k" := (bind m (λ _, k))
  (at level 100, k at level 200, right associativity).

Definition gets {A} (f : Blockchain → A) : M A := λ s, (Ok (f s), s).

(** [[]]: a new, empty list object. *)
Definition new_list : M loc :=
  λ s, (Ok (length (store s)),
        mkBlockchain (store s ++ [[]]) (chain s) (current_data s)).

(** [self.current_data = l] *)
Definition set_current_data (l : loc) : M unit :=
  λ s, (Ok tt, mkBlockchain (store s) (chain s) l).

(** [self.chain = []] *)
Definition reset_chain : M unit :=
  λ s, (Ok tt, mkBlockchain (store s) [] (current_data s)).

(** [self.chain.append(block)] *)
Definition chain_append (block : Block) : M unit :=
  λ s, (Ok tt, mkBlockchain (store s) (chain s ++ [block]) (current_data s)).

(** [l.append(x)] on the list object at [l]. *)
Definition list_append (l : loc) (x : dict) : M unit :=
  λ s, (Ok tt, mkBlockchain (alter (λ xs, xs ++ [x]) l (store s))
                            (chain s) (current_data s)).

(** ** Dict access *)

Fixpoint dict_lookup (k : string) (d : dict) : option json :=
  match d with
  | [] => None
  | (k', v) :: d' => if String.eqb k' k then Some v else dict_lookup k d'
  end.

(** [d[k]] *)
Definition getitem (d : dict) (k : string) : M json :=
  match dict_lookup k d with
  | Some v => ret v
  | None => raise (KeyError k)
  end.

(** [d.get(k, dflt)] *)
Definition dict_get (d : dict) (k : string) (dflt : json) : json :=
  default dflt (dict_lookup k d).

(** ** The methods of [Blockchain] *)

(** [Blockchain.hash(block)] *)
Definition hash (block : json) : string :=
  let block_string := encode (json_dumps_sorted block) in
  SHA256.hexdigest block_string.

(** [self.last_block], that is [self.chain[-1]] *)
Definition last_block : M Block :=
  λ s, match last (chain s) with
       | Some b => (Ok b, s)
       | None => (Raise IndexError, s)
       end.

(** [previous_hash or self.hash(self.chain[-1])]: the right operand is only
    evaluated when [previous_hash] is [None] or the empty string. *)
Definition previous_hash_or_hash_of_last (previous_hash : option string)
  : M string :=
  match previous_hash with
  | Some (String c h) => ret (String c h)
  | _ => let! b := last_block in
         let! σ := gets store in
         ret (hash (block_json σ b))
  end.

(** [new_block(self, proof, previous_hash=None)]; [now] is what [time()]
    returns during the call. *)
Definition new_block (now : string) (proof : Z) (previous_hash : option string)
  : M Block :=
  let! n := gets (λ s, length (chain s)) in
  let! d := gets current_data in
  let! h := previous_hash_or_hash_of_last previous_hash in
  let block := {| index := Z.of_nat n + 1;
                  timestamp := now;
                  data := d;
                  proof := proof;
                  previous_hash := h |} in
  let! l := new_list in
  set_current_data l ;;
  chain_append block ;;
  ret block.

(** The dict literal of [new_data], once its subscriptions succeeded. *)
Definition record_of (session_data : dict) (users dh_parameters
    server_public_key receiver_public_key sender_public_key : json) : dict :=
  [("users", users);
   ("data", dict_get session_data "data" (JList []));
   ("dh_parameters", dh_parameters);
   ("server_public_key", server_public_key);
   ("receiver_public_key", receiver_public_key);
   ("sender_public_key", sender_public_key);
   ("sender_zkp_status", dict_get session_data "sender_zkp_status" (JStr "Pending"));
   ("receiver_zkp_status", dict_get session_data "receiver_zkp_status" (JStr "Pending"));
   ("sender_balance", dict_get session_data "sender_balance" (JInt 0));
   ("receiver_balance", dict_get session_data "receiver_balance" (JInt 0));
   ("authentification", dict_get session_data "authentification" (JStr "Pending"));
   ("Sufficient_amount", dict_get session_data "Sufficient_amount" (JStr "Pending"));
   ("sender_wallet_hash", dict_get session_data "sender_wallet_hash" (JStr ""));
   ("receiver_wallet_hash", dict_get session_data "receiver_wallet_hash" (JStr ""))].

(** [new_data(self, session_data)]: the list object is looked up, the dict
    literal is evaluated left to right, then [append] is called. *)
Definition new_data (session_data : dict) : M Z :=
  let! l := gets current_data in
  let! users := getitem session_data "users" in
  let! dh_parameters := getitem session_data "dh_parameters" in
  let! server_public_key := getitem session_data "server_public_key" in
  let! receiver_public_key := getitem session_data "receiver_public_key" in
  let! sender_public_key := getitem session_data "sender_public_key" in
  list_append l (record_of session_data users dh_parameters server_public_key
                   receiver_public_key sender_public_key) ;;
  let! b := last_block in
  ret (index b + 1).

(** [__init__(self)], run on the blank instance. *)
Definition init (now : string) : M Block :=
  reset_chain ;;
  let! l := new_list in
  set_current_data l ;;
  new_block now 100 (Some "1").

Definition blank : Blockchain := mkBlockchain [] [] 0%nat.

(** [Blockchain()] at time [now]. *)
Definition Blockchain_new (now : string) : Blockchain := (init now blank).2.

(** [valid_proof(last_proof, proof)] *)
Definition valid_proof (last_proof proof : Z) : bool :=
  let guess := encode (str_of_int last_proof +:+ str_of_int proof) in
  let guess_hash := SHA256.hexdigest guess in
  String.eqb (substring 0 4 guess_hash) "0000".

(** The loop of [proof_of_authority], entered with the candidate [proof];
    [fuel] bounds the number of tests of the loop condition. *)
Fixpoint proof_of_authority_from (fuel : nat) (last_proof proof : Z)
  : option Z :=
  match fuel with
  | O => None
  | S fuel' =>
      if valid_proof last_proof proof then Some proof
      else proof_of_authority_from fuel' last_proof (proof + 1)
  end.

(** [proof_of_authority(self, last_proof)] *)
Definition proof_of_authority (fuel : nat) (last_proof : Z) : option Z :=
  proof_of_authority_from fuel last_proof 0.

(** ** Vocabulary of the specification *)

(** [k in d] *)
Definition dict_mem (k : string) (d : dict) : bool :=
  match dict_lookup k d with Some _ => true | None => false end.

(** The keys [new_data] subscripts, in the order it evaluates them. *)
Definition required_fields : list string :=
  ["users"; "dh_parameters"; "server_public_key"; "receiver_public_key";
   "sender_public_key"].

(** The required fields an input lacks, in that order. *)
Definition missing (session_data : dict) : list string :=
  List.filter (λ k, negb (dict_mem k session_data)) required_fields.

(** The keys of a stored record, in the order of the dict literal. *)
Definition schema_fields : list string :=
  ["users"; "data"; "dh_parameters"; "server_public_key";
   "receiver_public_key"; "sender_public_key"; "sender_zkp_status";
   "receiver_zkp_status"; "sender_balance"; "receiver_balance";
   "authentification"; "Sufficient_amount"; "sender_wallet_hash";
   "receiver_wallet_hash"].

(** The defaults of the optional fields. *)
Definition defaults : dict :=
  [("data", JList []);
   ("sender_zkp_status", JStr "Pending");
   ("receiver_zkp_status", JStr "Pending");
   ("authentification", JStr "Pending");
   ("Sufficient_amount", JStr "Pending");
   ("sender_balance", JInt 0);
   ("receiver_balance", JInt 0);
   ("sender_wallet_hash", JStr "");
   ("receiver_wallet_hash", JStr "")].

(** The normalized record of an input: every schema field, with the input's
    value where the input has the field and the default otherwise. *)
Definition normalized (session_data : dict) : dict :=
  (λ k, (k, dict_get session_data k (dict_get defaults k JNull)))
    <$> schema_fields.

(** The text of an integer, following the spec's words ("the two integers
    as text"), read from the text back to the number: the decimal numerals
    Python prints are a run of digits without a leading zero (a single [0]
    for zero), after a [-] for a negative number. *)

(** The digit a character stands for. *)
Definition digit_value (c : ascii) : option Z :=
  let n := Z.of_N (N_of_ascii c) in
  if (48 <=? n) && (n <=? 57) then Some (n - 48) else None.

(** The number a run of digits denotes, most significant digit first,
    continuing from [acc]. *)
Fixpoint digits_value (acc : Z) (s : string) : option Z :=
  match s with
  | EmptyString => Some acc
  | String c s' =>
      match digit_value c with
      | Some d => digits_value (10 * acc + d) s'
      | None => None
      end
  end.

(** Not empty, and no leading zero but in ["0"]. *)
Definition canonical_digits (s : string) : bool :=
  match s with
  | EmptyString => false
  | String c s' => negb (Ascii.eqb c "0") || String.eqb s' ""
  end.

(** The integer a decimal numeral denotes; [None] for any other text
    (["007"], ["-0"], ["-"], ["1a"], the empty text). *)
Definition numeral_value (s : string) : option Z :=
  match s with
  | EmptyString => None
  | String c s' =>
      if Ascii.eqb c "-"
      then if canonical_digits s' && negb (String.eqb s' "0")
           then Z.opp <$> digits_value 0 s' else None
      else if canonical_digits s then digits_value 0 s else None
  end.

(** The exception names the field [k]. *)
Definition names {A} (o : outcome A) (k : string) : Prop :=
  o = Raise (KeyError k).

(** States of a ledger: [Blockchain()] followed by calls of [new_data] (that
    return or raise) and of [new_block] with only a proof. *)
Inductive reachable : Blockchain → Prop :=
  | reachable_new now :
      reachable (Blockchain_new now)
  | reachable_new_data s session_data :
      reachable s → reachable (new_data session_data s).2
  | reachable_new_block s now proof :
      reachable s → reachable (new_block now proof None s).2.

(** What every ledger state satisfies. *)
Record consistent (s : Blockchain) : Prop := {
  pool_live : (current_data s < length (store s))%nat;
  data_sealed : ∀ b, b ∈ chain s → (data b < current_data s)%nat;
  chain_nonempty : chain s ≠ [];
  genesis_first : ∃ g, head (chain s) = Some g ∧ previous_hash g = "1";
  index_position : ∀ i b, chain s !! i = Some b → index b = Z.of_nat i + 1;
  chain_linked : ∀ i a b,
    chain s !! i = Some a → chain s !! S i = Some b →
    previous_hash b = hash (block_json (store s) a);
  records_schema : Forall (Forall (λ r : dict, r.*1 = schema_fields)) (store s)
}.

(** ** A run of the ledger *)

Definition example_session : dict :=
  [("users", JStr "alice,bob"); ("dh_parameters", JStr "p");
   ("server_public_key", JStr "s"); ("receiver_public_key", JStr "r");
   ("sender_public_key", JStr "a"); ("note", JInt 3)].

(** An input without ['users'] and ['dh_parameters']. *)
Definition example_incomplete : dict :=
  [("server_public_key", JStr "s"); ("receiver_public_key", JStr "r");
   ("sender_public_key", JStr "a")].

(** [Blockchain()], then [new_data(example_session)]. *)
Definition example_pending : Blockchain :=
  (new_data example_session (Blockchain_new "1.5")).2.

(** ... then [new_block(35293)]. *)
Definition example_ledger : Blockchain :=
  (new_block "2.5" 35293 None example_pending).2.

(** Equality of values as Python's [==] decides it between values of the
    same types: lists item by item, dicts key by key whatever the order of
    their items (floats by the text printed for them). *)
Inductive json_equiv : json → json → Prop :=
  | json_equiv_null : json_equiv JNull JNull
  | json_equiv_bool b : json_equiv (JBool b) (JBool b)
  | json_equiv_int n : json_equiv (JInt n) (JInt n)
  | json_equiv_float r : json_equiv (JFloat r) (JFloat r)
  | json_equiv_str s : json_equiv (JStr s) (JStr s)
  | json_equiv_list l1 l2 :
      Forall2 json_equiv l1 l2 → json_equiv (JList l1) (JList l2)
  | json_equiv_dict d1 d2 :
      NoDup d1.*1 → NoDup d2.*1 →
      (∀ k, option_Forall2 json_equiv (dict_lookup k d1) (dict_lookup k d2)) →
      json_equiv (JDict d1) (JDict d2).

(** The same block twice, the keys of the block and of its record inserted
    in different orders. *)
Definition example_block : json :=
  JDict [("index", JInt 2);
         ("timestamp", JFloat "2.5");
         ("data", JList [JDict [("users", JStr "alice,bob");
                                ("sender_balance", JInt 0)]]);
         ("proof", JInt 35293);
         ("previous_hash", JStr "1")].

Definition example_block_reordered : json :=
  JDict [("previous_hash", JStr "1");
         ("data", JList [JDict [("sender_balance", JInt 0);
                                ("users", JStr "alice,bob")]]);
         ("proof", JInt 35293);
         ("index", JInt 2);
         ("timestamp", JFloat "2.5")].

(** Structural induction on values, through lists and dicts. *)
Section json_induction.
Variable P : json → Prop.
Hypothesis Hnull : P JNull.
Hypothesis Hbool : ∀ b, P (JBool b).
Hypothesis Hint : ∀ n, P (JInt n).
Hypothesis Hfloat : ∀ r, P (JFloat r).
Hypothesis Hstr : ∀ s, P (JStr s).
Hypothesis Hlist : ∀ l, Forall P l → P (JList l).
Hypothesis Hdict : ∀ d, Forall (λ kv, P kv.2) d → P (JDict d).

Fixpoint json_nested_ind (v : json) : P v :=
  match v with
  | JNull => Hnull
  | JBool b => Hbool b
  | JInt n => Hint n
  | JFloat r => Hfloat r
  | JStr s => Hstr s
  | JList l =>
      Hlist l ((fix items (l : list json) : Forall P l :=
                  match l with
                  | [] => List.Forall_nil P
                  | x :: l' => List.Forall_cons P x l' (json_nested_ind x) (items l')
                  end) l)
  | JDict d =>
      Hdict d ((fix items (d : dict) : Forall (λ kv, P kv.2) d :=
                  match d with
                  | [] => List.Forall_nil _
                  | kv :: d' =>
                      List.Forall_cons _ kv d' (json_nested_ind kv.2) (items d')
                  end) d)
  end.
End json_induction.

(** ** The HTTP handlers *)

(** What a view returns: a text or the value handed to [jsonify], and the
    status code. *)
Inductive body : Type :=
  | Text (s : string)
  | Json (v : json).

Definition response : Type := body * Z.

(** The dict [mine] submits before forging. *)
Definition reward : dict :=
  [("users", JStr "0");
   ("data", JList []);
   ("dh_parameters", JStr "");
   ("server_public_key", JStr "");
   ("receiver_public_key", JStr "");
   ("sender_public_key", JStr "");
   ("sender_zkp_status", JStr "Completed");
   ("receiver_zkp_status", JStr "Completed");
   ("sender_balance", JInt 0);
   ("receiver_balance", JInt 0);
   ("authentification", JStr "Completed");
   ("Sufficient_amount", JStr "Completed");
   ("sender_wallet_hash", JStr "");
   ("receiver_wallet_hash", JStr "")].

(** The dict [mine] hands to [jsonify]; [block['data']] is read then. *)
Definition mine_response (block : Block) : M response :=
  let! σ := gets store in
  ret (Json (JDict [("message", JStr "New Block Forged");
                    ("index", JInt (index block));
                    ("data", JList (JDict <$> deref σ (data block)));
                    ("proof", JInt (proof block));
                    ("previous_hash", JStr (previous_hash block))]),
       200).

(** [mine()].  [None]: the proof search is still running when [fuel] tests
    of its loop condition are done. *)
Definition mine (fuel : nat) (now : string) (s : Blockchain)
  : option (outcome response * Blockchain) :=
  match last_block s with
  | (Raise e, s1) => Some (Raise e, s1)
  | (Ok last_block, s1) =>
      let last_proof := proof last_block in
      match proof_of_authority fuel last_proof with
      | None => None
      | Some proof =>
          Some ((new_data reward ;;
                 let! block := new_block now proof None in
                 mine_response block) s1)
      end
  end.

(** The keys [new_transaction] checks. *)
Definition required : list string :=
  ["users"; "data"; "dh_parameters"; "server_public_key";
   "receiver_public_key"; "sender_public_key"].

(** [new_transaction()], with [values] the dict [request.get_json()]
    returned. *)
Definition new_transaction (values : dict) : M response :=
  if negb (forallb (λ k, dict_mem k values) required)
  then ret (Text "Missing values", 400)
  else
    let! index := new_data values in
    ret (Json (JDict [("message",
                       JStr ("Transaction will be added to Block "
                               +:+ str_of_int index))]),
         201).

(** [full_chain()] *)
Definition full_chain : M response :=
  let! c := gets chain in
  let! σ := gets store in
  ret (Json (JDict [("chain", JList (block_json σ <$> c));
                    ("length", JInt (Z.of_nat (length c)))]),
       200).

(** States of the served ledger: the module's [Blockchain()] followed by
    requests to the three routes. *)
Inductive served : Blockchain → Prop :=
  | served_start now :
      served (Blockchain_new now)
  | served_mine s fuel now r s' :
      served s → mine fuel now s = Some (r, s') → served s'
  | served_new_transaction s values :
      served s → served (new_transaction values s).2
  | served_full_chain s :
      served s → served (full_chain s).2.

(** A later state of a ledger: any number of calls of [new_data] and of
    [new_block] with only a proof. *)
Inductive evolves (s : Blockchain) : Blockchain → Prop :=
  | evolves_refl :
      evolves s s
  | evolves_new_data s' session_data :
      evolves s s' → evolves s (new_data session_data s').2
  | evolves_new_block s' now proof :
      evolves s s' → evolves s (new_block now proof None s').2.

(** A character of a lower-case hexadecimal numeral. *)
Definition is_hex (c : ascii) : bool :=
  let n := N_of_ascii c in
  ((48 <=? n) && (n <=? 57) || (97 <=? n) && (n <=? 102))%N.

(** A ledger before [__init__] has sealed the genesis block: an empty chain
    and an empty pool. *)
Definition unsealed : Blockchain := mkBlockchain [[]] [] 0%nat.

(** A second complete input. *)
Definition example_session2 : dict :=
  [("users", JStr "carol,dave"); ("dh_parameters", JStr "q");
   ("server_public_key", JStr "s"); ("receiver_public_key", JStr "d");
   ("sender_public_key", JStr "c"); ("sender_balance", JInt 7)].

(** [Blockchain()], then [new_block(30916)]: from the proof 30916 the
    search of [mine] returns 2. *)
Definition example_mined : Blockchain :=
  (new_block "2.5" 30916 None (Blockchain_new "1.5")).2.

(** * Properties *)

(** Digests are computed by [vm_compute] only, never unfolded by [simpl]. *)
#[local] Arguments SHA256.hexdigest : simpl never.
#[local] Arguments valid_proof : simpl never.
#[local] Arguments hash : simpl never.

(** ** Known answers *)

(** FIPS 180-4 examples. *)
Example sha256_empty :
  SHA256.hexdigest [] =
  "e3b0c44298fc1c149afbf4c8996fb92427ae41e4649b934ca495991b7852b855"%string.
Proof. vm_compute. reflexivity. Qed.

Example sha256_abc :
  SHA256.hexdigest (list_byte_of_string "abc") =
  "ba7816bf8f01cfea414140de5dae2223b00361a396177a9cb410ff61f20015ad"%string.
Proof. vm_compute. reflexivity. Qed.

Example sha256_two_blocks :
  SHA256.hexdigest
    (list_byte_of_string
       "abcdbcdecdefdefgefghfghighijhijkijkljklmklmnlmnomnopnopq") =
  "248d6a61d20638b8e5c026930c3e6039a33ce45964ff2167f6ecedd419db06c1"%string.
Proof. vm_compute. reflexivity. Qed.

(** What [json.dumps(.., sort_keys=True)] prints. *)
Example json_dumps_sorted_example :
  json_dumps_sorted
    (JDict [("b", JInt 1); ("a", JList [JInt (-2); JStr "x"; JNull]);
            ("B", JDict []); ("c", JFloat "1.5")])
  = String.concat ""
      ["{"; json_string "B"; ": {}, "; json_string "a"; ": [-2, ";
       json_string "x"; ", null], "; json_string "b"; ": 1, ";
       json_string "c"; ": 1.5}"].
Proof. reflexivity. Qed.

Example json_string_example :
  list_ascii_of_string
    (json_string (String "010" (String "a" (String "233" (String dquote "")))))
  = [dquote; backslash; "n"; "a"; backslash; "u"; "0"; "0"; "e"; "9";
     backslash; dquote; dquote]%char.
Proof. reflexivity. Qed.

(** The proof of the reference run, [proof_of_authority(100)]. *)
Example valid_proof_100_35293 :
  SHA256.hexdigest (encode (str_of_int 100 +:+ str_of_int 35293)) =
  "0000c415de5ceea33c02daa85a1c218ecca1b1c9e9864ed34d183597844de8e2"%string.
Proof. vm_compute. reflexivity. Qed.

(** ** Key order *)

Section key_order.

Lemma leb_cases (a b : string) :
  String.leb a b = true ↔ a = b ∨ String_as_OT.lt a b.
Proof.
  unfold String.leb. split.
  - destruct (String.compare a b) eqn:E; intros H; try discriminate.
    + left. by apply String.compare_eq_iff.
    + right. by apply String_as_OT.cmp_lt.
  - intros [->|H].
    + assert (String.compare b b = Eq) as -> by by apply String_as_OT.cmp_eq.
      done.
    + apply String_as_OT.cmp_lt in H. unfold String_as_OT.cmp in H.
      by rewrite H.
Qed.

Lemma leb_trans (a b c : string) :
  String.leb a b = true → String.leb b c = true → String.leb a c = true.
Proof.
  rewrite !leb_cases. intros [->|Hab] [->|Hbc]; auto.
  right. eapply String_as_OT.lt_trans; eauto.
Qed.

Lemma leb_false_flip (a b : string) :
  String.leb a b = false → String.leb b a = true.
Proof.
  intros H. destruct (String.leb_total a b) as [H'|H']; congruence.
Qed.

Context {V : Type}.
Implicit Types (x y : string * V) (l : list (string * V)).

Lemma insert_item_comm x y l :
  x.1 ≠ y.1 →
  insert_item x (insert_item y l) = insert_item y (insert_item x l).
Proof.
  intros Hne. induction l as [|z l IH]; simpl.
  - destruct (String.leb x.1 y.1) eqn:Hxy, (String.leb y.1 x.1) eqn:Hyx;
      try done.
    + destruct Hne. by apply String.leb_antisym.
    + apply leb_false_flip in Hxy. congruence.
  - destruct (String.leb y.1 z.1) eqn:Hyz, (String.leb x.1 z.1) eqn:Hxz;
      simpl; rewrite ?Hyz, ?Hxz.
    + destruct (String.leb x.1 y.1) eqn:Hxy, (String.leb y.1 x.1) eqn:Hyx;
        try done.
      * destruct Hne. by apply String.leb_antisym.
      * apply leb_false_flip in Hxy. congruence.
    + destruct (String.leb x.1 y.1) eqn:Hxy; [|done].
      rewrite (leb_trans _ _ _ Hxy Hyz) in Hxz. done.
    + destruct (String.leb y.1 x.1) eqn:Hyx; [|done].
      rewrite (leb_trans _ _ _ Hyx Hxz) in Hyz. done.
    + by rewrite IH.
Qed.

(** Sorting a dict's items forgets the order they were inserted in. *)
Lemma sort_items_Permutation l1 l2 :
  NoDup l1.*1 → l1 ≡ₚ l2 → sort_items l1 = sort_items l2.
Proof.
  intros Hnd Hp. induction Hp as [|x l1 l2 Hp IH|x y l|l1 l2 l3 H1 IH1 H2 IH2];
    simpl.
  - done.
  - f_equal. apply IH. by inversion Hnd.
  - apply insert_item_comm. simpl in Hnd.
    apply NoDup_cons in Hnd as [Hy _]. intros Heq. apply Hy. rewrite Heq. left.
  - rewrite IH1 by done. apply IH2. by rewrite <- H1.
Qed.

End key_order.

(** ** Dicts *)

Lemma dict_lookup_elem_of (d : dict) k v :
  NoDup d.*1 → dict_lookup k d = Some v ↔ (k, v) ∈ d.
Proof.
  induction d as [|[k' v'] d IH]; simpl; intros Hnd.
  - split; [done | by intros ?%elem_of_nil].
  - apply NoDup_cons in Hnd as [Hk' Hnd].
    destruct (String.eqb_spec k' k) as [->|Hne].
    + split.
      * intros [= ->]. left.
      * intros [[= ->]|Hin]%elem_of_cons; [done|].
        destruct Hk'. apply list_elem_of_fmap. by exists (k, v).
    + rewrite IH by done. split.
      * by right.
      * intros [[= -> ->]|Hin]%elem_of_cons; done.
  Qed.

(** ** [json.dumps(.., sort_keys=True)] and [hash] respect equality of values *)

Lemma json_dumps_sorted_equiv v1 :
  ∀ v2, json_equiv v1 v2 → json_dumps_sorted v1 = json_dumps_sorted v2.
Proof.
  induction v1 as [| | | | |l1 IH|d1 IH] using json_nested_ind;
    intros v2 Heq; inversion Heq as [| | | | |? l2 Hl|? d2 Hnd1 Hnd2 Hd];
    subst; try done.
  - simpl. do 3 f_equal. clear Heq.
    induction Hl as [|x y l1 l2 Hxy Hl IHl]; [done|].
    apply Forall_cons in IH as [Hx IH]. simpl. f_equal; auto.
  - simpl. do 4 f_equal. clear Heq.
    set (f := λ kv : string * json, (kv.1, json_dumps_sorted kv.2)).
    assert (Hkeys : ∀ d : dict, (f <$> d).*1 = d.*1).
    { intros d. rewrite <- list_fmap_compose. done. }
    apply sort_items_Permutation; [by rewrite Hkeys|].
    apply NoDup_Permutation.
    + eapply NoDup_fmap_1. by rewrite Hkeys.
    + eapply NoDup_fmap_1. by rewrite Hkeys.
    + intros [k s]. rewrite !list_elem_of_fmap. rewrite Forall_forall in IH.
      split.
      * intros ([k1 v1] & [= -> ->] & Hin). simpl in *.
        pose proof (IH _ Hin) as IHv. simpl in IHv.
        apply dict_lookup_elem_of in Hin; [|done].
        specialize (Hd k1). rewrite Hin in Hd.
        inversion Hd as [? v2 Hv Hl1 Hl2|]; subst.
        symmetry in Hl2.
        exists (k1, v2). split; [unfold f; simpl; by rewrite (IHv v2)|].
        apply dict_lookup_elem_of; done.
      * intros ([k2 v2] & [= -> ->] & Hin). simpl in *.
        apply dict_lookup_elem_of in Hin; [|done].
        specialize (Hd k2). rewrite Hin in Hd.
        inversion Hd as [v1 ? Hv Hl1 Hl2|]; subst.
        symmetry in Hl1. apply dict_lookup_elem_of in Hl1; [|done].
        pose proof (IH _ Hl1) as IHv. simpl in IHv.
        exists (k2, v1). split; [unfold f; simpl; by rewrite (IHv v2)|done].
Qed.

Lemma hash_equiv b1 b2 : json_equiv b1 b2 → hash b1 = hash b2.
Proof. intros H. unfold hash. by rewrite (json_dumps_sorted_equiv b1 b2). Qed.

(** ** Equations of the methods *)

Ltac run_method :=
  unfold new_block, new_data, init, previous_hash_or_hash_of_last, last_block,
    getitem, bind, ret, raise, gets, new_list, set_current_data, reset_chain,
    chain_append, list_append; simpl.

Lemma new_block_last now p s b :
  last (chain s) = Some b →
  new_block now p None s =
    let block := mkBlock (Z.of_nat (length (chain s)) + 1) now (current_data s)
                         p (hash (block_json (store s) b)) in
    (Ok block,
     mkBlockchain (store s ++ [[]]) (chain s ++ [block]) (length (store s))).
Proof. intros H. run_method. by rewrite H. Qed.

Lemma new_block_empty now p s :
  chain s = [] → new_block now p None s = (Raise IndexError, s).
Proof. intros H. run_method. by rewrite H. Qed.

Lemma new_data_present sd s u dh sp rp se :
  dict_lookup "users" sd = Some u →
  dict_lookup "dh_parameters" sd = Some dh →
  dict_lookup "server_public_key" sd = Some sp →
  dict_lookup "receiver_public_key" sd = Some rp →
  dict_lookup "sender_public_key" sd = Some se →
  new_data sd s =
    (match last (chain s) with
     | Some b => Ok (index b + 1)
     | None => Raise IndexError
     end,
     mkBlockchain
       (alter (λ xs, xs ++ [record_of sd u dh sp rp se])
              (current_data s) (store s))
       (chain s) (current_data s)).
Proof.
  intros Hu Hdh Hsp Hrp Hse. run_method.
  rewrite Hu, Hdh, Hsp, Hrp, Hse. simpl. by destruct (last (chain s)).
Qed.

Lemma missing_nil sd :
  missing sd = [] →
  ∃ u dh sp rp se,
    dict_lookup "users" sd = Some u ∧
    dict_lookup "dh_parameters" sd = Some dh ∧
    dict_lookup "server_public_key" sd = Some sp ∧
    dict_lookup "receiver_public_key" sd = Some rp ∧
    dict_lookup "sender_public_key" sd = Some se.
Proof.
  unfold missing, required_fields, dict_mem. simpl.
  destruct (dict_lookup "users" sd) as [u|]; [|done].
  destruct (dict_lookup "dh_parameters" sd) as [dh|]; [|done].
  destruct (dict_lookup "server_public_key" sd) as [sp|]; [|done].
  destruct (dict_lookup "receiver_public_key" sd) as [rp|]; [|done].
  destruct (dict_lookup "sender_public_key" sd) as [se|]; [|done].
  intros _. by exists u, dh, sp, rp, se.
Qed.

Lemma new_data_missing sd s k :
  head (missing sd) = Some k → new_data sd s = (Raise (KeyError k), s).
Proof.
  unfold missing, required_fields, dict_mem. run_method.
  destruct (dict_lookup "users" sd); simpl; [|by intros [= <-]].
  destruct (dict_lookup "dh_parameters" sd); simpl; [|by intros [= <-]].
  destruct (dict_lookup "server_public_key" sd); simpl; [|by intros [= <-]].
  destruct (dict_lookup "receiver_public_key" sd); simpl; [|by intros [= <-]].
  destruct (dict_lookup "sender_public_key" sd); simpl; [|by intros [= <-]].
  done.
Qed.

Lemma dict_get_Some d k v dflt :
  dict_lookup k d = Some v → dict_get d k dflt = v.
Proof. unfold dict_get. by intros ->. Qed.

Lemma record_of_normalized sd u dh sp rp se :
  dict_lookup "users" sd = Some u →
  dict_lookup "dh_parameters" sd = Some dh →
  dict_lookup "server_public_key" sd = Some sp →
  dict_lookup "receiver_public_key" sd = Some rp →
  dict_lookup "sender_public_key" sd = Some se →
  record_of sd u dh sp rp se = normalized sd.
Proof.
  intros Hu Hdh Hsp Hrp Hse.
  unfold normalized, record_of, schema_fields. simpl.
  by rewrite (dict_get_Some sd "users" u), (dict_get_Some sd "dh_parameters" dh),
    (dict_get_Some sd "server_public_key" sp),
    (dict_get_Some sd "receiver_public_key" rp),
    (dict_get_Some sd "sender_public_key" se).
Qed.

Lemma record_of_keys sd u dh sp rp se :
  (record_of sd u dh sp rp se).*1 = schema_fields.
Proof. done. Qed.

(** Hashing a block reads the store only at the block's data. *)
Lemma block_json_store σ σ' b :
  σ' !! data b = σ !! data b → block_json σ' b = block_json σ b.
Proof. intros H. unfold block_json, deref. by rewrite H. Qed.

(** ** Every ledger state is consistent *)

Lemma Blockchain_new_eq now :
  Blockchain_new now =
    mkBlockchain [[]; []] [mkBlock 1 now 0%nat 100 "1"] 1%nat.
Proof. reflexivity. Qed.

Lemma consistent_new now : consistent (Blockchain_new now).
Proof.
  rewrite Blockchain_new_eq. split; simpl.
  - lia.
  - intros b ->%list_elem_of_singleton. simpl. lia.
  - done.
  - by eexists.
  - intros [|i] b; simpl; [by intros [= <-]|done].
  - intros [|i] a b; done.
  - repeat constructor.
Qed.

Lemma sealed_data_ne s b :
  consistent s → b ∈ chain s → data b ≠ current_data s.
Proof. intros Hs Hb. pose proof (data_sealed s Hs b Hb). lia. Qed.

Lemma consistent_new_data sd s :
  consistent s → consistent (new_data sd s).2.
Proof.
  intros Hs. destruct (missing sd) as [|k ks] eqn:Hm.
  - destruct (missing_nil _ Hm) as (u & dh & sp & rp & se & Hu & Hdh & Hsp & Hrp & Hse).
    rewrite (new_data_present sd s u dh sp rp se) by done.
    split; simpl.
    + rewrite length_alter. apply Hs.
    + apply Hs.
    + apply Hs.
    + apply Hs.
    + apply Hs.
    + intros i a b Ha Hb. rewrite (block_json_store (store s)); [by eapply chain_linked|].
      apply list_lookup_alter_ne. apply not_eq_sym, sealed_data_ne; [done|].
      by eapply list_elem_of_lookup_2.
    + apply Forall_alter; [apply Hs|].
      intros xs _ Hxs. apply Forall_app. split; [done|].
      by repeat constructor.
  - rewrite (new_data_missing sd s k); [done|by rewrite Hm].
Qed.

Lemma consistent_new_block now p s :
  consistent s → consistent (new_block now p None s).2.
Proof.
  intros Hs. destruct (last (chain s)) as [b|] eqn:Hl.
  2: { apply last_None in Hl. by destruct (chain_nonempty s Hs). }
  rewrite (new_block_last _ _ _ b) by done. simpl.
  pose proof (pool_live s Hs) as Hlive.
  split; simpl.
  - rewrite length_app. simpl. lia.
  - intros b' [Hin| ->%list_elem_of_singleton]%elem_of_app; simpl; [|done].
    pose proof (data_sealed s Hs b' Hin). lia.
  - by destruct (chain s).
  - destruct (genesis_first s Hs) as (g & Hg & Hsent). exists g.
    split; [|done]. by destruct (chain s).
  - intros i b' [[Hi Hb]|[-> <-]]%lookup_snoc_Some; [|done].
    by apply (index_position s Hs).
  - intros i a b' Ha [[Hi Hb]|[Hi <-]]%lookup_snoc_Some.
    + apply lookup_snoc_Some in Ha as [[_ Ha]|[-> _]]; [|lia].
      rewrite (block_json_store (store s)); [by eapply chain_linked|].
      apply lookup_app_l.
      pose proof (data_sealed s Hs a (list_elem_of_lookup_2 _ _ _ Ha)). lia.
    + apply lookup_snoc_Some in Ha as [[_ Ha]|[-> _]]; [|lia].
      rewrite last_lookup, <- Hi in Hl. simpl in Hl.
      assert (a = b) as -> by congruence. simpl. f_equal. symmetry.
      apply block_json_store, lookup_app_l.
      pose proof (data_sealed s Hs b (list_elem_of_lookup_2 _ _ _ Ha)). lia.
  - apply Forall_app. split; [apply Hs|]. by repeat constructor.
Qed.

Lemma reachable_consistent s : reachable s → consistent s.
Proof.
  induction 1; auto using consistent_new, consistent_new_data,
    consistent_new_block.
Qed.

(** ** The chain *)

Lemma example_ledger_reachable : reachable example_ledger.
Proof.
  unfold example_ledger, example_pending.
  apply reachable_new_block, reachable_new_data, reachable_new.
Qed.

Lemma example_pending_reachable : reachable example_pending.
Proof. apply reachable_new_data, reachable_new. Qed.

(** C1. Chain-link invariant: in every ledger state reachable from
    construction by calls of [new_data] and of [new_block] with only a proof,
    every block after the first stores as [previous_hash] the hash of the
    block before it. *)
Theorem chain_link_invariant s i a b :
  reachable s →
  chain s !! i = Some a → chain s !! S i = Some b →
  previous_hash b = hash (block_json (store s) a).
Proof. intros Hs%reachable_consistent. by apply chain_linked. Qed.

Lemma chain_link_invariant_witness :
  ∃ a b,
    reachable example_ledger ∧
    chain example_ledger !! 0%nat = Some a ∧
    chain example_ledger !! 1%nat = Some b ∧
    previous_hash b = hash (block_json (store example_ledger) a).
Proof.
  eexists _, _. split; [exact example_ledger_reachable|].
  split; [vm_compute; reflexivity|]. split; [vm_compute; reflexivity|].
  apply (chain_link_invariant example_ledger 0).
  - exact example_ledger_reachable.
  - vm_compute; reflexivity.
  - vm_compute; reflexivity.
Defined.

(** The stores after sealing: the block holds the pool's list object, the
    pool is a new one. *)
Lemma new_block_seals_pool_gen now p s :
  chain s ≠ [] → (current_data s < length (store s))%nat →
  ∃ b,
    last (chain s) = Some b ∧
    deref (store (new_block now p None s).2) (current_data s) = pool s ∧
    pool (new_block now p None s).2 = [].
Proof.
  intros Hne Hlive.
  destruct (last (chain s)) as [b|] eqn:Hl; [|by apply last_None in Hl].
  exists b. split; [done|].
  rewrite (new_block_last _ _ _ b) by done.
  unfold pool, deref. simpl.
  rewrite lookup_app_l by done.
  by rewrite list_lookup_middle.
Qed.

(** C3. Sealing with only a proof, on a non-empty chain: the block built has
    index [len(chain) + 1], the time of the call, the pool's records in
    their order, the proof supplied and the hash of the last block; it is
    appended to the chain, and the pool is empty afterwards. *)
Theorem new_block_seals_pool now p s :
  chain s ≠ [] → (current_data s < length (store s))%nat →
  ∃ last_b block s',
    last (chain s) = Some last_b ∧
    new_block now p None s = (Ok block, s') ∧
    index block = Z.of_nat (length (chain s)) + 1 ∧
    timestamp block = now ∧
    block_data s' block = pool s ∧
    proof block = p ∧
    previous_hash block = hash (block_json (store s) last_b) ∧
    chain s' = chain s ++ [block] ∧
    pool s' = [].
Proof.
  intros Hne Hlive.
  destruct (new_block_seals_pool_gen now p s) as (b & Hl & Hd & Hp);
    [done..|].
  rewrite (new_block_last _ _ _ b) in * by done.
  by eexists b, _, _.
Qed.

Lemma new_block_seals_pool_witness :
  chain example_pending ≠ [] ∧
  (current_data example_pending < length (store example_pending))%nat ∧
  ∃ last_b block s',
    last (chain example_pending) = Some last_b ∧
    new_block "2.5" 35293 None example_pending = (Ok block, s') ∧
    index block = 2 ∧
    timestamp block = "2.5" ∧
    block_data s' block = pool example_pending ∧
    proof block = 35293 ∧
    previous_hash block = hash (block_json (store example_pending) last_b) ∧
    chain s' = chain example_pending ++ [block] ∧
    pool s' = [].
Proof.
  split; [done|]. split; [vm_compute; lia|].
  apply (new_block_seals_pool "2.5" 35293 example_pending); [done|].
  vm_compute; lia.
Defined.



(** C8. A freshly constructed ledger has a chain of one block, with index 1
    and the sentinel ['1'] as [previous_hash]; in every reachable state the
    chain is non-empty, its first block is still that one, and [last_block]
    returns a block instead of raising [IndexError]. *)
Theorem genesis_present :
  (∀ now, ∃ g,
     chain (Blockchain_new now) = [g] ∧ index g = 1 ∧ previous_hash g = "1") ∧
  (∀ s, reachable s →
     chain s ≠ [] ∧
     (∃ g, chain s !! 0%nat = Some g ∧ index g = 1 ∧ previous_hash g = "1") ∧
     (∃ b, last_block s = (Ok b, s) ∧ last (chain s) = Some b)).
Proof.
  split.
  - intros now. rewrite Blockchain_new_eq. by eexists.
  - intros s Hs%reachable_consistent.
    pose proof (chain_nonempty s Hs) as Hne. split; [done|]. split.
    + destruct (genesis_first s Hs) as (g & Hg & Hsent). exists g.
      rewrite head_lookup in Hg. split; [done|]. split; [|done].
      by rewrite (index_position s Hs _ _ Hg).
    + unfold last_block.
      destruct (last (chain s)) as [b|] eqn:Hl; [|by apply last_None in Hl].
      by exists b.
Qed.

Lemma genesis_present_witness :
  reachable example_ledger ∧
  chain example_ledger ≠ [] ∧
  (∃ g, chain example_ledger !! 0%nat = Some g ∧ index g = 1
        ∧ previous_hash g = "1") ∧
  (∃ b, last_block example_ledger = (Ok b, example_ledger)
        ∧ last (chain example_ledger) = Some b).
Proof.
  split; [exact example_ledger_reachable|].
  apply (proj2 genesis_present example_ledger). exact example_ledger_reachable.
Defined.

(** C2, as stated, fails.  From the fresh ledger, whose last proof is 100,
    the proof 0 does not validate, yet [new_block] returns a block and the
    chain grows. *)
Lemma new_block_rejects_invalid_proof_counterexample :
  ¬ (∀ now s p b,
       reachable s → last (chain s) = Some b →
       valid_proof (proof b) p = false →
       ∃ e, new_block now p None s = (Raise e, s)).
Proof.
  intros H.
  destruct (H "2.5" (Blockchain_new "1.5") 0 (mkBlock 1 "1.5" 0%nat 100 "1"))
    as [e He].
  - apply reachable_new.
  - reflexivity.
  - vm_compute. reflexivity.
  - rewrite (new_block_last _ _ _ (mkBlock 1 "1.5" 0%nat 100 "1")) in He
      by reflexivity.
    discriminate He.
Qed.

(** C2, amended.  [new_block] does not validate the proof: on every ledger
    state and for every proof, also one that [valid_proof] rejects against
    the last block's proof, it returns a block carrying that proof, appends
    it to the chain and leaves an empty pool. *)
Theorem new_block_accepts_any_proof now s p :
  reachable s →
  ∃ block s',
    new_block now p None s = (Ok block, s') ∧
    proof block = p ∧
    chain s' = chain s ++ [block] ∧
    block_data s' block = pool s ∧
    pool s' = [].
Proof.
  intros Hs%reachable_consistent.
  destruct (new_block_seals_pool_gen now p s) as (b & Hl & Hd & Hp).
  - by apply chain_nonempty.
  - by apply pool_live.
  - rewrite (new_block_last _ _ _ b) in * by done. by eexists _, _.
Qed.

Lemma new_block_accepts_any_proof_witness :
  reachable example_pending ∧
  (∃ b, last (chain example_pending) = Some b
        ∧ valid_proof (proof b) 0 = false) ∧
  ∃ block s',
    new_block "2.5" 0 None example_pending = (Ok block, s') ∧
    proof block = 0 ∧
    chain s' = chain example_pending ++ [block] ∧
    block_data s' block = pool example_pending ∧
    pool s' = [].
Proof.
  split; [exact example_pending_reachable|]. split.
  - exists (mkBlock 1 "1.5" 0%nat 100 "1").
    split; [reflexivity|]. vm_compute. reflexivity.
  - apply (new_block_accepts_any_proof "2.5" example_pending 0).
    exact example_pending_reachable.
Defined.

(** ** Submitting records *)

(** C6, as stated, fails where several required fields are missing: the
    [KeyError] names one field only.  The input below lacks ['users'] and
    ['dh_parameters']; the exception names ['users'], not ['dh_parameters']. *)
Lemma new_data_names_missing_fields_counterexample :
  ¬ (∀ s sd,
       reachable s → missing sd ≠ [] →
       (∀ k, k ∈ missing sd → names (new_data sd s).1 k) ∧
       pool (new_data sd s).2 = pool s).
Proof.
  intros H.
  destruct (H (Blockchain_new "1.5") example_incomplete) as [Hnames _].
  - apply reachable_new.
  - discriminate.
  - specialize (Hnames "dh_parameters"). unfold names in Hnames.
    rewrite (new_data_missing _ _ "users") in Hnames by reflexivity.
    simpl in Hnames. assert (Hin : "dh_parameters" ∈ missing example_incomplete).
    { change (missing example_incomplete) with ["users"; "dh_parameters"].
      right. left. }
    specialize (Hnames Hin). discriminate Hnames.
Qed.

(** C6, amended.  On an input that lacks at least one required field,
    [new_data] raises a [KeyError] naming the first missing field, in the
    order users, dh_parameters, server_public_key, receiver_public_key,
    sender_public_key; the state, and so the pool, is as before the call. *)
Theorem new_data_missing_field s sd :
  missing sd ≠ [] →
  ∃ k,
    head (missing sd) = Some k ∧
    new_data sd s = (Raise (KeyError k), s) ∧
    pool (new_data sd s).2 = pool s ∧
    chain (new_data sd s).2 = chain s.
Proof.
  intros Hm. destruct (missing sd) as [|k ks] eqn:Hmiss; [done|].
  exists k. split; [done|].
  rewrite (new_data_missing sd s k) by by rewrite Hmiss.
  done.
Qed.

Lemma new_data_missing_field_witness :
  missing example_incomplete ≠ [] ∧
  ∃ k,
    head (missing example_incomplete) = Some k ∧
    new_data example_incomplete example_pending = (Raise (KeyError k), example_pending) ∧
    pool (new_data example_incomplete example_pending).2 = pool example_pending ∧
    chain (new_data example_incomplete example_pending).2 = chain example_pending.
Proof.
  split; [discriminate|].
  apply (new_data_missing_field example_pending example_incomplete).
  discriminate.
Defined.

Lemma dict_lookup_None (d : dict) k : k ∉ d.*1 → dict_lookup k d = None.
Proof.
  induction d as [|[k' v] d IH]; simpl; [done|].
  intros Hk. apply not_elem_of_cons in Hk as [Hne Hk].
  destruct (String.eqb_spec k' k); [congruence|auto].
Qed.

(** C10. The record [new_data] stores has exactly the 14 schema fields:
    a key of the input outside the schema is not a key of the stored record.
    So in every ledger state, every record of the pool and of every block's
    data has exactly those 14 keys. *)
Theorem stored_records_have_schema_fields :
  (∀ s sd, reachable s → missing sd = [] →
     ∃ n r,
       (new_data sd s).1 = Ok n ∧
       pool (new_data sd s).2 = pool s ++ [r] ∧
       r.*1 = schema_fields ∧ length r = 14%nat ∧
       ∀ k, k ∉ schema_fields → dict_lookup k r = None) ∧
  (∀ s, reachable s →
     (∀ r, r ∈ pool s → r.*1 = schema_fields) ∧
     (∀ b r, b ∈ chain s → r ∈ block_data s b → r.*1 = schema_fields)).
Proof.
  split.
  - intros s sd Hs Hm.
    pose proof (reachable_consistent s Hs) as Hc.
    destruct (missing_nil _ Hm)
      as (u & dh & sp & rp & se & Hu & Hdh & Hsp & Hrp & Hse).
    rewrite (new_data_present sd s u dh sp rp se) by done. simpl.
    destruct (last (chain s)) as [b|] eqn:Hl.
    2: { apply last_None in Hl. by destruct (chain_nonempty s Hc). }
    eexists _, (record_of sd u dh sp rp se). split; [done|]. split.
    + unfold pool, deref. simpl.
      destruct (lookup_lt_is_Some_2 _ _ (pool_live s Hc)) as [xs Hxs].
      by rewrite list_lookup_alter_eq, Hxs.
    + split; [done|]. split; [done|].
      intros k Hk. apply dict_lookup_None. by rewrite record_of_keys.
  - intros s Hs%reachable_consistent.
    pose proof (records_schema s Hs) as Hrec.
    rewrite Forall_lookup in Hrec.
    assert (Hderef : ∀ l r, r ∈ deref (store s) l → r.*1 = schema_fields).
    { intros l r. unfold deref.
      destruct (store s !! l) as [xs|] eqn:Hxs; simpl.
      - intros Hr. specialize (Hrec _ _ Hxs). rewrite Forall_forall in Hrec.
        by apply Hrec.
      - by intros ?%elem_of_nil. }
    split; [apply Hderef|]. intros b r _. apply Hderef.
Qed.

Lemma stored_records_have_schema_fields_witness :
  reachable example_ledger ∧
  (∀ r, r ∈ pool example_ledger → r.*1 = schema_fields) ∧
  (∀ b r, b ∈ chain example_ledger → r ∈ block_data example_ledger b →
          r.*1 = schema_fields).
Proof.
  split; [exact example_ledger_reachable|].
  apply (proj2 stored_records_have_schema_fields example_ledger).
  exact example_ledger_reachable.
Defined.

(** ** The proof search *)

Lemma eqb_substring_0000 h :
  String.eqb (substring 0 4 h) "0000" = true ↔ ∃ rest, h = "0000" +:+ rest.
Proof.
  rewrite String.eqb_eq. split.
  - destruct h as [|c0 [|c1 [|c2 [|c3 rest]]]]; simpl; try discriminate.
    intros [= -> -> -> -> _]. by exists rest.
  - intros [rest ->]. by destruct rest.
Qed.

(** The loop returns only a candidate that passes, having seen every
    candidate before it fail. *)
Lemma proof_of_authority_from_Some fuel last_proof start r :
  proof_of_authority_from fuel last_proof start = Some r →
  start ≤ r ∧ valid_proof last_proof r = true ∧
  ∀ c, start ≤ c < r → valid_proof last_proof c = false.
Proof.
  revert start. induction fuel as [|fuel IH]; intros start; cbn [proof_of_authority_from]; [done|].
  destruct (valid_proof last_proof start) eqn:Hv.
  - intros [= <-]. repeat split; [lia|done|lia].
  - intros (Hle & Hr & Hbelow)%IH. repeat split; [lia|done|].
    intros c Hc. destruct (decide (c = start)) as [->|]; [done|].
    apply Hbelow. lia.
Qed.

(** With a passing candidate [n] steps ahead, the loop returns after at most
    [n + 1] tests of its condition. *)
Lemma proof_of_authority_from_terminates n last_proof start :
  valid_proof last_proof (start + Z.of_nat n) = true →
  ∃ r, ∀ fuel, (S n ≤ fuel)%nat →
         proof_of_authority_from fuel last_proof start = Some r.
Proof.
  revert start. induction n as [|n IH]; intros start Hv.
  - exists start. intros [|fuel] Hf; [lia|]. cbn [proof_of_authority_from].
    replace (start + Z.of_nat 0) with start in Hv by lia. by rewrite Hv.
  - destruct (valid_proof last_proof start) eqn:Hs.
    + exists start. intros [|fuel] Hf; [lia|]. cbn [proof_of_authority_from]. by rewrite Hs.
    + destruct (IH (start + 1)) as [r Hr].
      { by replace (start + 1 + Z.of_nat n) with (start + Z.of_nat (S n)) by lia. }
      exists r. intros [|fuel] Hf; [lia|]. cbn [proof_of_authority_from]. rewrite Hs. apply Hr. lia.
Qed.

(** C5. Where some candidate [c >= 0] passes [valid_proof(last_proof, c)],
    [proof_of_authority(last_proof)] returns: with enough fuel the search
    from 0 in steps of 1 ends, and what it returns is the least such
    candidate, so it passes [valid_proof] itself. *)
Theorem proof_of_authority_least last_proof :
  (∃ c, 0 ≤ c ∧ valid_proof last_proof c = true) →
  ∃ p,
    (∃ fuel0, ∀ fuel, (fuel0 ≤ fuel)%nat →
                proof_of_authority fuel last_proof = Some p) ∧
    (∀ fuel r, proof_of_authority fuel last_proof = Some r → r = p) ∧
    0 ≤ p ∧
    valid_proof last_proof p = true ∧
    (∀ c, 0 ≤ c < p → valid_proof last_proof c = false).
Proof.
  intros (c & Hc & Hv). unfold proof_of_authority.
  destruct (proof_of_authority_from_terminates (Z.to_nat c) last_proof 0)
    as [p Hp].
  { by replace (0 + Z.of_nat (Z.to_nat c)) with c by lia. }
  pose proof (Hp _ (le_n _)) as Hrun.
  apply proof_of_authority_from_Some in Hrun as (Hp0 & Hpv & Hbelow).
  exists p. split; [by eexists|]. split; [|done].
  intros fuel r (Hr0 & Hrv & Hrbelow)%proof_of_authority_from_Some.
  destruct (Z.lt_trichotomy r p) as [Hlt|[->|Hgt]]; [|done|].
  - rewrite Hbelow in Hrv by lia. done.
  - rewrite Hrbelow in Hpv by lia. done.
Qed.

Lemma proof_of_authority_least_witness :
  (∃ c, 0 ≤ c ∧ valid_proof 100 c = true) ∧
  ∃ p,
    (∃ fuel0, ∀ fuel, (fuel0 ≤ fuel)%nat →
                proof_of_authority fuel 100 = Some p) ∧
    (∀ fuel r, proof_of_authority fuel 100 = Some r → r = p) ∧
    0 ≤ p ∧
    valid_proof 100 p = true ∧
    (∀ c, 0 ≤ c < p → valid_proof 100 c = false).
Proof.
  assert (H : ∃ c, 0 ≤ c ∧ valid_proof 100 c = true).
  { exists 35293. split; [lia|]. vm_compute. reflexivity. }
  split; [exact H|]. apply (proof_of_authority_least 100). exact H.
Defined.

(** ** Hashing *)

(** Case analysis on a key looked up in dict literals. *)
Ltac lookup_cases k :=
  cbn [dict_lookup];
  repeat match goal with
         | |- context [String.eqb ?a k] =>
             destruct (String.eqb_spec a k) as [<-|?]
         end;
  cbn [String.eqb Ascii.eqb Bool.eqb].

Lemma json_equiv_block σ1 σ2 (B1 B2 : Block) :
  index B1 = index B2 → timestamp B1 = timestamp B2 →
  proof B1 = proof B2 → previous_hash B1 = previous_hash B2 →
  Forall2 (λ r1 r2, json_equiv (JDict r1) (JDict r2))
    (deref σ1 (data B1)) (deref σ2 (data B2)) →
  json_equiv (block_json σ1 B1) (block_json σ2 B2).
Proof.
  intros Hi Ht Hp Hh Hd. unfold block_json. rewrite Hi, Ht, Hp, Hh.
  apply json_equiv_dict; [compute_done..|].
  intros k. lookup_cases k; constructor; try by constructor.
  apply json_equiv_list. by apply Forall2_fmap.
Qed.

Lemma example_block_equiv : json_equiv example_block example_block_reordered.
Proof.
  apply json_equiv_dict; [compute_done..|].
  intros k. lookup_cases k; constructor; try by constructor.
  apply json_equiv_list. constructor; [|constructor].
  apply json_equiv_dict; [compute_done..|].
  intros k. lookup_cases k; constructor; by constructor.
Qed.

(** C9. [hash] is deterministic and depends on the field values only: two
    blocks with the same value under every key, their lists of records equal
    item by item, have the same digest, whatever the order in which the keys
    of the block and of its records were inserted. *)
Theorem hash_deterministic :
  (∀ b1 b2 : json, json_equiv b1 b2 → hash b1 = hash b2) ∧
  (∀ σ1 σ2 (B1 B2 : Block),
     index B1 = index B2 → timestamp B1 = timestamp B2 →
     proof B1 = proof B2 → previous_hash B1 = previous_hash B2 →
     Forall2 (λ r1 r2, json_equiv (JDict r1) (JDict r2))
       (deref σ1 (data B1)) (deref σ2 (data B2)) →
     hash (block_json σ1 B1) = hash (block_json σ2 B2)).
Proof.
  split.
  - apply hash_equiv.
  - intros. by apply hash_equiv, json_equiv_block.
Qed.

Lemma hash_deterministic_witness :
  json_equiv example_block example_block_reordered ∧
  hash example_block = hash example_block_reordered.
Proof.
  split; [exact example_block_equiv|].
  apply (proj1 hash_deterministic example_block example_block_reordered).
  exact example_block_equiv.
Defined.

(** * Further properties of the ledger *)

(** ** Frames of the two mutators *)

Lemma new_data_state sd s :
  (new_data sd s).2 = s ∨
  ∃ r, (new_data sd s).2 =
         mkBlockchain (alter (λ xs, xs ++ [r]) (current_data s) (store s))
                      (chain s) (current_data s).
Proof.
  destruct (missing sd) as [|k ks] eqn:Hm.
  - destruct (missing_nil _ Hm)
      as (u & dh & sp & rp & se & Hu & Hdh & Hsp & Hrp & Hse).
    rewrite (new_data_present sd s u dh sp rp se) by done. right. by eexists.
  - left. rewrite (new_data_missing sd s k); [done|by rewrite Hm].
Qed.

Lemma new_data_complete sd s :
  consistent s → missing sd = [] →
  new_data sd s =
    (Ok (Z.of_nat (length (chain s)) + 1),
     mkBlockchain (alter (λ xs, xs ++ [normalized sd]) (current_data s) (store s))
                  (chain s) (current_data s)).
Proof.
  intros Hs Hm.
  destruct (missing_nil _ Hm)
    as (u & dh & sp & rp & se & Hu & Hdh & Hsp & Hrp & Hse).
  rewrite (new_data_present sd s u dh sp rp se) by done.
  rewrite (record_of_normalized sd u dh sp rp se) by done.
  destruct (last (chain s)) as [b|] eqn:Hl.
  2: { apply last_None in Hl. by destruct (chain_nonempty s Hs). }
  do 3 f_equal. rewrite last_lookup in Hl.
  rewrite (index_position s Hs _ _ Hl).
  destruct (chain s); [done|]. simpl. lia.
Qed.

Lemma pool_after_append s r :
  (current_data s < length (store s))%nat →
  pool (mkBlockchain (alter (λ xs, xs ++ [r]) (current_data s) (store s))
                     (chain s) (current_data s)) = pool s ++ [r].
Proof.
  intros Hlive. unfold pool, deref. simpl.
  destruct (lookup_lt_is_Some_2 _ _ Hlive) as [xs Hxs].
  by rewrite list_lookup_alter_eq, Hxs.
Qed.

Lemma new_data_frame sd s b :
  consistent s → b ∈ chain s →
  chain (new_data sd s).2 = chain s ∧
  store (new_data sd s).2 !! data b = store s !! data b.
Proof.
  intros Hs Hb. destruct (new_data_state sd s) as [->|[r ->]]; [done|].
  simpl. split; [done|]. apply list_lookup_alter_ne.
  by apply not_eq_sym, sealed_data_ne.
Qed.

Lemma new_block_frame now p s b :
  consistent s → b ∈ chain s →
  (∃ block, chain (new_block now p None s).2 = chain s ++ [block]) ∧
  store (new_block now p None s).2 !! data b = store s !! data b.
Proof.
  intros Hs Hb. destruct (last (chain s)) as [lb|] eqn:Hl.
  2: { apply last_None in Hl. by destruct (chain_nonempty s Hs). }
  rewrite (new_block_last _ _ _ lb) by done. simpl. split; [by eexists|].
  apply lookup_app_l.
  pose proof (data_sealed s Hs b Hb). pose proof (pool_live s Hs). lia.
Qed.

Lemma evolves_reachable s s' : reachable s → evolves s s' → reachable s'.
Proof. induction 2; auto using reachable. Qed.

(** ** Blocks once sealed *)

(** X1. In every ledger state a block's index is its position in the chain
    counted from 1, and the last block's index is the length of the chain. *)
Theorem block_index_is_position s :
  reachable s →
  (∀ i b, chain s !! i = Some b → index b = Z.of_nat i + 1) ∧
  (∃ b, last (chain s) = Some b ∧ index b = Z.of_nat (length (chain s))).
Proof.
  intros Hs%reachable_consistent. split; [apply (index_position s Hs)|].
  destruct (last (chain s)) as [b|] eqn:Hl.
  2: { apply last_None in Hl. by destruct (chain_nonempty s Hs). }
  exists b. split; [done|]. rewrite last_lookup in Hl.
  rewrite (index_position s Hs _ _ Hl).
  pose proof (chain_nonempty s Hs). destruct (chain s); [done|]. simpl. lia.
Qed.

Lemma block_index_is_position_witness :
  reachable example_ledger ∧
  (∀ i b, chain example_ledger !! i = Some b → index b = Z.of_nat i + 1) ∧
  (∃ b, last (chain example_ledger) = Some b ∧ index b = 2).
Proof.
  split; [exact example_ledger_reachable|].
  apply (block_index_is_position example_ledger).
  exact example_ledger_reachable.
Defined.

Lemma evolves_frame s s' :
  reachable s → evolves s s' →
  chain s `prefix_of` chain s' ∧
  ∀ b, b ∈ chain s → store s' !! data b = store s !! data b.
Proof.
  intros Hs Hev.
  induction Hev as [|s' sd Hev [IHp IHd]|s' now p Hev [IHp IHd]].
  - done.
  - pose proof (reachable_consistent _ (evolves_reachable _ _ Hs Hev)) as Hc.
    split.
    + destruct (new_data_state sd s') as [->|[r ->]]; done.
    + intros b Hb. rewrite <- (IHd b Hb).
      apply (new_data_frame sd s' b Hc).
      destruct IHp as [k ->]. apply elem_of_app. by left.
  - pose proof (reachable_consistent _ (evolves_reachable _ _ Hs Hev)) as Hc.
    pose proof (chain_nonempty s' Hc) as Hne.
    destruct (chain s') as [|b0 bs] eqn:Hch; [done|].
    assert (Hb0 : b0 ∈ chain s') by (rewrite Hch; left).
    destruct (new_block_frame now p s' b0 Hc Hb0) as [[block Hblock] _].
    split.
    + rewrite Hblock, Hch. destruct IHp as [k ->].
      exists (k ++ [block]). by rewrite <- app_assoc.
    + intros b Hb. rewrite <- (IHd b Hb).
      apply (new_block_frame now p s' b Hc).
      rewrite Hch. destruct IHp as [k ->]. apply elem_of_app. by left.
Qed.

(** X2. The chain is append-only and sealed blocks are never mutated:
    whatever calls of [new_data] and [new_block] follow, the chain of a
    ledger state stays a prefix of the later chain, and each of its blocks
    keeps its records and its hash. *)
Theorem sealed_blocks_never_change s s' :
  reachable s → evolves s s' →
  chain s `prefix_of` chain s' ∧
  ∀ b, b ∈ chain s →
       block_data s' b = block_data s b ∧
       hash (block_json (store s') b) = hash (block_json (store s) b).
Proof.
  intros Hs Hev. destruct (evolves_frame s s' Hs Hev) as [Hp Hd].
  split; [done|]. intros b Hb.
  unfold block_data, deref. rewrite (Hd b Hb). split; [done|].
  by rewrite (block_json_store (store s) (store s') b (Hd b Hb)).
Qed.

Lemma sealed_blocks_never_change_witness :
  reachable (Blockchain_new "1.5") ∧
  evolves (Blockchain_new "1.5") example_ledger ∧
  chain (Blockchain_new "1.5") `prefix_of` chain example_ledger ∧
  ∀ b, b ∈ chain (Blockchain_new "1.5") →
       block_data example_ledger b = block_data (Blockchain_new "1.5") b ∧
       hash (block_json (store example_ledger) b)
       = hash (block_json (store (Blockchain_new "1.5")) b).
Proof.
  assert (Hev : evolves (Blockchain_new "1.5") example_ledger).
  { apply evolves_new_block, evolves_new_data, evolves_refl. }
  split; [apply reachable_new|]. split; [exact Hev|].
  apply (sealed_blocks_never_change (Blockchain_new "1.5") example_ledger).
  - apply reachable_new.
  - exact Hev.
Defined.

(** ** The shape of a digest *)

Lemma list_ascii_of_string_append a b :
  list_ascii_of_string (a +:+ b)
  = list_ascii_of_string a ++ list_ascii_of_string b.
Proof.
  induction a as [|c a IH]; [done|].
  change (list_ascii_of_string (String c (a +:+ b))
          = (c :: list_ascii_of_string a) ++ list_ascii_of_string b).
  cbn [list_ascii_of_string app]. by rewrite IH.
Qed.

Lemma string_length_list s : String.length s = length (list_ascii_of_string s).
Proof. induction s as [|c s IH]; [done|]. cbn. by rewrite IH. Qed.

Lemma is_hex_hex_digit d :
  0 ≤ d < 16 → is_hex (SHA256.hex_digit d) = true.
Proof.
  intros [H0 H16]. destruct d as [|p|p]; [done| |lia].
  do 4 (destruct p as [p|p|]; try lia; try reflexivity).
Qed.

Lemma hex_word_chars x :
  length (list_ascii_of_string (SHA256.hex_word x)) = 8%nat ∧
  forallb is_hex (list_ascii_of_string (SHA256.hex_word x)) = true.
Proof.
  unfold SHA256.hex_word. rewrite list_ascii_of_string_of_list_ascii.
  split; [done|]. apply forallb_forall. intros c (i & <- & _)%in_map_iff.
  apply is_hex_hex_digit. change 0xF with (Z.ones 4).
  rewrite Z.land_ones by lia. apply Z.mod_pos_bound. lia.
Qed.

(** X3. [hash] always returns 64 characters, each a lower-case hexadecimal
    digit. *)
Theorem hash_is_64_hex block :
  String.length (hash block) = 64%nat ∧
  forallb is_hex (list_ascii_of_string (hash block)) = true.
Proof.
  unfold hash, SHA256.hexdigest.
  generalize (SHA256.digest_words
                (map (λ b, Z.of_N (Byte.to_N b))
                   (encode (json_dumps_sorted block)))).
  intros r. cbn [String.concat map]. rewrite string_length_list.
  rewrite !list_ascii_of_string_append. cbn [list_ascii_of_string app].
  rewrite !length_app, !forallb_app.
  destruct (hex_word_chars (SHA256.ra r)) as [-> ->].
  destruct (hex_word_chars (SHA256.rb r)) as [-> ->].
  destruct (hex_word_chars (SHA256.rc r)) as [-> ->].
  destruct (hex_word_chars (SHA256.rd r)) as [-> ->].
  destruct (hex_word_chars (SHA256.re r)) as [-> ->].
  destruct (hex_word_chars (SHA256.rf r)) as [-> ->].
  destruct (hex_word_chars (SHA256.rg r)) as [-> ->].
  destruct (hex_word_chars (SHA256.rh r)) as [-> ->].
  done.
Qed.

Lemma hash_length block : String.length (hash block) = 64%nat.
Proof.
  unfold hash, SHA256.hexdigest.
  generalize (SHA256.digest_words
                (map (λ b, Z.of_N (Byte.to_N b))
                   (encode (json_dumps_sorted block)))).
  intros r. cbn [String.concat map]. rewrite string_length_list.
  rewrite !list_ascii_of_string_append. cbn [list_ascii_of_string app].
  rewrite !length_app.
  by rewrite !(proj1 (hex_word_chars _)).
Qed.

(** X4. In every ledger state the genesis block is the only block whose
    [previous_hash] is the sentinel ['1']: every later block stores a
    64-character digest. *)
Theorem sentinel_only_at_genesis s i b :
  reachable s → chain s !! i = Some b →
  (previous_hash b = "1" ↔ i = 0%nat) ∧
  (i ≠ 0%nat → String.length (previous_hash b) = 64%nat).
Proof.
  intros Hs%reachable_consistent Hb.
  assert (Hlater : i ≠ 0%nat → String.length (previous_hash b) = 64%nat).
  { intros Hi. destruct i as [|j]; [done|].
    destruct (lookup_lt_is_Some_2 (chain s) j) as [a Ha].
    { apply lookup_lt_Some in Hb. lia. }
    rewrite (chain_linked s Hs j a b Ha Hb). apply hash_length. }
  split; [|done]. split.
  - intros Hsent. destruct i as [|j]; [done|].
    specialize (Hlater ltac:(done)). by rewrite Hsent in Hlater.
  - intros ->. destruct (genesis_first s Hs) as (g & Hg & Hsent).
    rewrite head_lookup in Hg. congruence.
Qed.

Lemma sentinel_only_at_genesis_witness :
  ∃ b,
    reachable example_ledger ∧
    chain example_ledger !! 1%nat = Some b ∧
    (previous_hash b = "1" ↔ 1%nat = 0%nat) ∧
    (1%nat ≠ 0%nat → String.length (previous_hash b) = 64%nat).
Proof.
  eexists. split; [exact example_ledger_reachable|].
  split; [vm_compute; reflexivity|].
  apply (sentinel_only_at_genesis example_ledger 1).
  - exact example_ledger_reachable.
  - vm_compute; reflexivity.
Defined.

(** ** Edge cases of [new_block] and [new_data] *)

(** X5. A non-empty [previous_hash] passed to [new_block] is stored as it is,
    whatever the chain holds, even an empty chain (this is how the genesis
    block is made): the last block is not hashed, the pool becomes the
    block's data and a new empty pool is set. *)
Theorem new_block_explicit_previous_hash now p h s :
  h ≠ "" → (current_data s < length (store s))%nat →
  ∃ block s',
    new_block now p (Some h) s = (Ok block, s') ∧
    previous_hash block = h ∧
    index block = Z.of_nat (length (chain s)) + 1 ∧
    proof block = p ∧
    block_data s' block = pool s ∧
    chain s' = chain s ++ [block] ∧
    pool s' = [].
Proof.
  intros Hh Hlive. destruct h as [|c h]; [done|].
  eexists _, _. split; [run_method; reflexivity|]. simpl.
  unfold block_data, pool, deref. simpl.
  rewrite lookup_app_l by done. by rewrite list_lookup_middle.
Qed.

Lemma new_block_explicit_previous_hash_witness :
  "abc" ≠ "" ∧
  (current_data unsealed < length (store unsealed))%nat ∧
  ∃ block s',
    new_block "1.5" 7 (Some "abc") unsealed = (Ok block, s') ∧
    previous_hash block = "abc" ∧
    index block = 1 ∧
    proof block = 7 ∧
    block_data s' block = pool unsealed ∧
    chain s' = chain unsealed ++ [block] ∧
    pool s' = [].
Proof.
  split; [done|]. split; [vm_compute; lia|].
  apply (new_block_explicit_previous_hash "1.5" 7 "abc" unsealed); [done|].
  vm_compute; lia.
Defined.

(** X6. An empty string passed as [previous_hash] counts as none: the call
    behaves as [new_block(proof)].  On an empty chain both raise
    [IndexError], and nothing has changed: no block, the same pool. *)
Theorem new_block_empty_previous_hash now p s :
  new_block now p (Some "") s = new_block now p None s ∧
  (chain s = [] →
   new_block now p (Some "") s = (Raise IndexError, s) ∧
   new_block now p None s = (Raise IndexError, s)).
Proof.
  split; [done|]. intros Hch.
  split; by apply new_block_empty.
Qed.

Lemma new_block_empty_previous_hash_witness :
  chain unsealed = [] ∧
  new_block "1.5" 7 (Some "") unsealed = (Raise IndexError, unsealed) ∧
  new_block "1.5" 7 None unsealed = (Raise IndexError, unsealed).
Proof.
  split; [done|].
  apply (proj2 (new_block_empty_previous_hash "1.5" 7 unsealed)). done.
Defined.

(** X7. Called on an empty chain with a complete input, [new_data] raises
    [IndexError] only after it has appended the record: unlike the
    [KeyError] of an incomplete input, this failure leaves the record in the
    pool. *)
Theorem new_data_empty_chain sd s :
  chain s = [] → (current_data s < length (store s))%nat →
  missing sd = [] →
  ∃ s',
    new_data sd s = (Raise IndexError, s') ∧
    pool s' = pool s ++ [normalized sd] ∧
    chain s' = [].
Proof.
  intros Hch Hlive Hm.
  destruct (missing_nil _ Hm)
    as (u & dh & sp & rp & se & Hu & Hdh & Hsp & Hrp & Hse).
  rewrite (new_data_present sd s u dh sp rp se) by done.
  rewrite (record_of_normalized sd u dh sp rp se) by done.
  rewrite Hch. simpl. eexists. split; [done|].
  split; [|done]. rewrite <- Hch. by apply pool_after_append.
Qed.

Lemma new_data_empty_chain_witness :
  chain unsealed = [] ∧
  (current_data unsealed < length (store unsealed))%nat ∧
  missing example_session = [] ∧
  ∃ s',
    new_data example_session unsealed = (Raise IndexError, s') ∧
    pool s' = pool unsealed ++ [normalized example_session] ∧
    chain s' = [].
Proof.
  split; [done|]. split; [vm_compute; lia|]. split; [done|].
  apply (new_data_empty_chain example_session unsealed); [done| |done].
  vm_compute; lia.
Defined.

(** ** The proof search, test by test *)

Lemma proof_of_authority_from_bound fuel last_proof start r :
  proof_of_authority_from fuel last_proof start = Some r →
  r < start + Z.of_nat fuel.
Proof.
  revert start. induction fuel as [|fuel IH]; intros start;
    cbn [proof_of_authority_from]; [done|].
  destruct (valid_proof last_proof start).
  - intros [= <-]. lia.
  - intros Hr%IH. lia.
Qed.

Lemma proof_of_authority_from_first n : ∀ fuel last_proof start,
  (n < fuel)%nat →
  valid_proof last_proof (start + Z.of_nat n) = true →
  (∀ c, start ≤ c < start + Z.of_nat n → valid_proof last_proof c = false) →
  proof_of_authority_from fuel last_proof start = Some (start + Z.of_nat n).
Proof.
  induction n as [|n IH]; intros [|fuel] last_proof start Hf Hv Hbelow;
    try lia; cbn [proof_of_authority_from].
  - replace (start + Z.of_nat 0) with start in * by lia. by rewrite Hv.
  - rewrite (Hbelow start) by lia.
    replace (start + Z.of_nat (S n)) with (start + 1 + Z.of_nat n) in * by lia.
    apply IH; [lia|done|]. intros c Hc. apply Hbelow. lia.
Qed.

Lemma proof_of_authority_from_None fuel : ∀ last_proof start,
  proof_of_authority_from fuel last_proof start = None ↔
  ∀ c, start ≤ c < start + Z.of_nat fuel → valid_proof last_proof c = false.
Proof.
  induction fuel as [|fuel IH]; intros last_proof start;
    cbn [proof_of_authority_from].
  - split; [intros _ c Hc; lia|done].
  - destruct (valid_proof last_proof start) eqn:Hv.
    + split; [done|]. intros H. rewrite H in Hv by lia. done.
    + rewrite IH. split.
      * intros H c Hc. destruct (decide (c = start)) as [->|]; [done|].
        apply H. lia.
      * intros H c Hc. apply H. lia.
Qed.

(** X8. [proof_of_authority] returns [p] within [fuel] tests of its loop
    condition exactly when [p] is below [fuel], passes [valid_proof] and no
    candidate from 0 up to [p - 1] does: the result takes [p + 1] tests and
    does not depend on the fuel left over. *)
Theorem proof_of_authority_Some_iff fuel last_proof p :
  proof_of_authority fuel last_proof = Some p ↔
  0 ≤ p < Z.of_nat fuel ∧
  valid_proof last_proof p = true ∧
  ∀ c, 0 ≤ c < p → valid_proof last_proof c = false.
Proof.
  unfold proof_of_authority. split.
  - intros H. pose proof (proof_of_authority_from_bound _ _ _ _ H) as Hlt.
    apply proof_of_authority_from_Some in H as (Hge & Hv & Hbelow).
    repeat split; [done|lia|done|done].
  - intros ([Hge Hf] & Hv & Hbelow).
    replace p with (0 + Z.of_nat (Z.to_nat p)) at 1 by lia.
    apply proof_of_authority_from_first; [lia| |].
    + by replace (0 + Z.of_nat (Z.to_nat p)) with p by lia.
    + intros c Hc. apply Hbelow. lia.
Qed.

(** X9. [proof_of_authority] is still searching after [fuel] tests exactly
    when every candidate below [fuel] fails [valid_proof]; so for a
    [last_proof] that no candidate validates the search never returns. *)
Theorem proof_of_authority_None_iff last_proof :
  (∀ fuel,
     proof_of_authority fuel last_proof = None ↔
     ∀ c, 0 ≤ c < Z.of_nat fuel → valid_proof last_proof c = false) ∧
  ((∀ c, 0 ≤ c → valid_proof last_proof c = false) →
   ∀ fuel, proof_of_authority fuel last_proof = None).
Proof.
  assert (H : ∀ fuel,
             proof_of_authority fuel last_proof = None ↔
             ∀ c, 0 ≤ c < Z.of_nat fuel → valid_proof last_proof c = false).
  { intros fuel. unfold proof_of_authority.
    rewrite proof_of_authority_from_None. by rewrite Z.add_0_l. }
  split; [done|]. intros Hnone fuel. apply H. intros c Hc. apply Hnone. lia.
Qed.

Lemma proof_of_authority_None_iff_witness :
  (∀ c, 0 ≤ c < Z.of_nat 2 → valid_proof 100 c = false) ∧
  proof_of_authority 2%nat 100 = None.
Proof.
  assert (H : ∀ c, 0 ≤ c < Z.of_nat 2 → valid_proof 100 c = false).
  { intros c Hc. assert (c = 0 ∨ c = 1) as [-> | ->] by lia;
      vm_compute; reflexivity. }
  split; [exact H|].
  apply (proj1 (proof_of_authority_None_iff 100) 2%nat). exact H.
Defined.

(** ** Submissions *)

Lemma new_data_complete_pool sd s :
  consistent s → missing sd = [] →
  ∃ s',
    new_data sd s = (Ok (Z.of_nat (length (chain s)) + 1), s') ∧
    consistent s' ∧
    pool s' = pool s ++ [normalized sd] ∧
    chain s' = chain s.
Proof.
  intros Hs Hm. pose proof (consistent_new_data sd s Hs) as Hs'.
  rewrite (new_data_complete sd s Hs Hm) in *.
  eexists. split; [done|]. split; [exact Hs'|].
  split; [|done]. apply pool_after_append, Hs.
Qed.

(** X10. A stored record can be submitted again as it is: the normalized
    record of a complete input is itself complete and normalizes to itself,
    so [new_data] appends an identical record. *)
Theorem new_data_resubmit s sd :
  reachable s → missing sd = [] →
  missing (normalized sd) = [] ∧
  normalized (normalized sd) = normalized sd ∧
  ∃ s',
    new_data (normalized sd) s = (Ok (Z.of_nat (length (chain s)) + 1), s') ∧
    pool s' = pool s ++ [normalized sd].
Proof.
  intros Hs%reachable_consistent Hm.
  assert (Hm' : missing (normalized sd) = []) by (vm_compute; reflexivity).
  assert (Hn : normalized (normalized sd) = normalized sd)
    by (vm_compute; reflexivity).
  split; [done|]. split; [done|].
  rewrite (new_data_complete (normalized sd) s Hs Hm'), Hn.
  eexists. split; [done|]. apply pool_after_append, Hs.
Qed.

Lemma new_data_resubmit_witness :
  reachable example_pending ∧
  missing example_session = [] ∧
  missing (normalized example_session) = [] ∧
  normalized (normalized example_session) = normalized example_session ∧
  ∃ s',
    new_data (normalized example_session) example_pending = (Ok 2, s') ∧
    pool s' = pool example_pending ++ [normalized example_session].
Proof.
  split; [exact example_pending_reachable|]. split; [done|].
  apply (new_data_resubmit example_pending example_session); [|done].
  exact example_pending_reachable.
Defined.

(** X11. Two complete submissions followed by a sealing: both calls of
    [new_data] return the same number, the index of the block sealed next,
    and that block holds what the pool held before followed by the two
    normalized records, in the order submitted; the pool is empty again. *)
Theorem submissions_then_seal now p s sd1 sd2 :
  reachable s → missing sd1 = [] → missing sd2 = [] →
  ∃ s1 s2 block s3,
    new_data sd1 s = (Ok (Z.of_nat (length (chain s)) + 1), s1) ∧
    new_data sd2 s1 = (Ok (Z.of_nat (length (chain s)) + 1), s2) ∧
    new_block now p None s2 = (Ok block, s3) ∧
    index block = Z.of_nat (length (chain s)) + 1 ∧
    block_data s3 block = pool s ++ [normalized sd1; normalized sd2] ∧
    chain s3 = chain s ++ [block] ∧
    pool s3 = [].
Proof.
  intros Hs%reachable_consistent Hm1 Hm2.
  destruct (new_data_complete_pool sd1 s Hs Hm1) as (s1 & E1 & Hs1 & Hp1 & Hc1).
  destruct (new_data_complete_pool sd2 s1 Hs1 Hm2) as (s2 & E2 & Hs2 & Hp2 & Hc2).
  rewrite Hc1 in E2.
  destruct (new_block_seals_pool_gen now p s2) as (b & Hl & Hd & Hp).
  { apply Hs2. } { apply Hs2. }
  rewrite (new_block_last _ _ _ b) in Hd, Hp by done. simpl in Hd, Hp.
  eexists s1, s2, _, _. split; [done|]. split; [done|].
  split; [by apply new_block_last|].
  simpl. rewrite Hc2, Hc1. split; [done|]. split; [|done].
  unfold block_data. simpl. rewrite Hd, Hp2, Hp1, <- app_assoc. done.
Qed.

Lemma submissions_then_seal_witness :
  reachable (Blockchain_new "1.5") ∧
  missing example_session = [] ∧
  missing example_session2 = [] ∧
  ∃ s1 s2 block s3,
    new_data example_session (Blockchain_new "1.5") = (Ok 2, s1) ∧
    new_data example_session2 s1 = (Ok 2, s2) ∧
    new_block "2.5" 35293 None s2 = (Ok block, s3) ∧
    index block = 2 ∧
    block_data s3 block
    = pool (Blockchain_new "1.5")
        ++ [normalized example_session; normalized example_session2] ∧
    chain s3 = chain (Blockchain_new "1.5") ++ [block] ∧
    pool s3 = [].
Proof.
  split; [apply reachable_new|]. split; [done|]. split; [done|].
  apply (submissions_then_seal "2.5" 35293 (Blockchain_new "1.5")
           example_session example_session2); [|done..].
  apply reachable_new.
Defined.

(** ** The HTTP handlers *)

Lemma reward_complete : missing reward = [] ∧ normalized reward = reward.
Proof. split; reflexivity. Qed.

(** One run of [mine] whose search returns [p]. *)
Lemma mine_run fuel now s b p :
  consistent s → last (chain s) = Some b →
  proof_of_authority fuel (proof b) = Some p →
  let block := mkBlock (Z.of_nat (length (chain s)) + 1) now (current_data s)
                       p (hash (block_json (store s) b)) in
  mine fuel now s =
    Some (Ok (Json (JDict [("message", JStr "New Block Forged");
                           ("index", JInt (Z.of_nat (length (chain s)) + 1));
                           ("data", JList (JDict <$> pool s ++ [reward]));
                           ("proof", JInt p);
                           ("previous_hash",
                            JStr (hash (block_json (store s) b)))]),
              200),
          mkBlockchain
            (alter (λ xs, xs ++ [reward]) (current_data s) (store s) ++ [[]])
            (chain s ++ [block]) (length (store s))).
Proof.
  intros Hs Hl Hp block. destruct reward_complete as [Hmr Hnr].
  unfold mine, last_block. rewrite Hl, Hp. unfold bind at 1.
  rewrite (new_data_complete reward s Hs Hmr), Hnr.
  unfold bind at 1.
  rewrite (new_block_last now p _ b) by done.
  unfold mine_response, bind, gets, ret. cbn [store chain current_data].
  assert (Hb : b ∈ chain s).
  { rewrite last_lookup in Hl. by eapply list_elem_of_lookup_2. }
  rewrite (block_json_store (store s) _ b).
  2: { apply list_lookup_alter_ne. by apply not_eq_sym, sealed_data_ne. }
  pose proof (pool_live s Hs) as Hlive.
  rewrite length_alter. cbn [data index proof previous_hash].
  assert (Hpool : deref (alter (λ xs, xs ++ [reward]) (current_data s) (store s)
                           ++ [[]]) (current_data s) = pool s ++ [reward]).
  { unfold pool, deref.
    rewrite lookup_app_l by by rewrite length_alter.
    destruct (lookup_lt_is_Some_2 _ _ Hlive) as [xs Hxs].
    by rewrite list_lookup_alter_eq, Hxs. }
  by rewrite Hpool.
Qed.

Lemma mine_run_evolves now s p :
  evolves s (new_block now p None (new_data reward s).2).2.
Proof. apply evolves_new_block, evolves_new_data, evolves_refl. Qed.

Lemma mine_run_state now s b p :
  consistent s → last (chain s) = Some b →
  (new_block now p None (new_data reward s).2).2 =
  mkBlockchain
    (alter (λ xs, xs ++ [reward]) (current_data s) (store s) ++ [[]])
    (chain s ++ [mkBlock (Z.of_nat (length (chain s)) + 1) now (current_data s)
                         p (hash (block_json (store s) b))])
    (length (store s)).
Proof.
  intros Hs Hl. destruct reward_complete as [Hmr Hnr].
  rewrite (new_data_complete reward s Hs Hmr), Hnr.
  rewrite (new_block_last now p _ b) by done.
  cbn [snd store chain current_data].
  assert (Hb : b ∈ chain s).
  { rewrite last_lookup in Hl. by eapply list_elem_of_lookup_2. }
  rewrite (block_json_store (store s) _ b).
  2: { apply list_lookup_alter_ne. by apply not_eq_sym, sealed_data_ne. }
  by rewrite length_alter.
Qed.

(** The records of the block [mine] forged, and the pool it left. *)
Lemma mine_run_pools s block bs :
  consistent s → data block = current_data s →
  let s' := mkBlockchain
              (alter (λ xs, xs ++ [reward]) (current_data s) (store s) ++ [[]])
              bs (length (store s)) in
  block_data s' block = pool s ++ [reward] ∧ pool s' = [].
Proof.
  intros Hs Hd s'. pose proof (pool_live s Hs) as Hlive.
  unfold block_data, pool, deref. cbn [store current_data s']. rewrite Hd.
  rewrite lookup_app_l by by rewrite length_alter.
  destruct (lookup_lt_is_Some_2 _ _ Hlive) as [xs Hxs].
  rewrite list_lookup_alter_eq, Hxs. split; [done|].
  rewrite <- (length_alter (λ xs, xs ++ [reward]) (store s) (current_data s)).
  by rewrite list_lookup_middle.
Qed.

(** X12. When the search of [mine] returns [p], [mine] answers 200 with the
    forged block: it has appended the reward record to the pool and sealed
    the pool into a new block with proof [p], which passes [valid_proof]
    against the proof of the block before; the pool is empty afterwards. *)
Theorem mine_forges fuel now s b p :
  reachable s → last (chain s) = Some b →
  proof_of_authority fuel (proof b) = Some p →
  ∃ block s',
    mine fuel now s =
      Some (Ok (Json (JDict [("message", JStr "New Block Forged");
                             ("index", JInt (index block));
                             ("data", JList (JDict <$> pool s ++ [reward]));
                             ("proof", JInt p);
                             ("previous_hash", JStr (previous_hash block))]),
                200), s') ∧
    chain s' = chain s ++ [block] ∧
    index block = Z.of_nat (length (chain s)) + 1 ∧
    proof block = p ∧
    valid_proof (proof b) p = true ∧
    previous_hash block = hash (block_json (store s) b) ∧
    block_data s' block = pool s ++ [reward] ∧
    pool s' = [].
Proof.
  intros Hs%reachable_consistent Hl Hp.
  pose proof (mine_run fuel now s b p Hs Hl Hp) as Hrun. simpl in Hrun.
  exists (mkBlock (Z.of_nat (length (chain s)) + 1) now (current_data s)
                  p (hash (block_json (store s) b))).
  eexists. split; [exact Hrun|]. split; [done|]. split; [done|].
  split; [done|]. split.
  { apply proof_of_authority_from_Some in Hp. apply Hp. }
  split; [done|]. by apply mine_run_pools.
Qed.

Lemma mine_forges_witness :
  ∃ b,
    reachable example_mined ∧
    last (chain example_mined) = Some b ∧
    proof_of_authority 3%nat (proof b) = Some 2 ∧
    ∃ block s',
      mine 3%nat "3.5" example_mined =
        Some (Ok (Json (JDict [("message", JStr "New Block Forged");
                               ("index", JInt (index block));
                               ("data",
                                JList (JDict <$> pool example_mined ++ [reward]));
                               ("proof", JInt 2);
                               ("previous_hash", JStr (previous_hash block))]),
                  200), s') ∧
      chain s' = chain example_mined ++ [block] ∧
      index block = Z.of_nat (length (chain example_mined)) + 1 ∧
      proof block = 2 ∧
      valid_proof (proof b) 2 = true ∧
      previous_hash block = hash (block_json (store example_mined) b) ∧
      block_data s' block = pool example_mined ++ [reward] ∧
      pool s' = [].
Proof.
  assert (Hr : reachable example_mined).
  { apply reachable_new_block, reachable_new. }
  eexists. split; [exact Hr|].
  split; [vm_compute; reflexivity|]. split; [vm_compute; reflexivity|].
  apply (mine_forges 3%nat "3.5" example_mined); [exact Hr| |].
  - vm_compute; reflexivity.
  - vm_compute; reflexivity.
Defined.

Lemma mine_cases fuel now s b :
  last (chain s) = Some b →
  mine fuel now s =
    match proof_of_authority fuel (proof b) with
    | None => None
    | Some p =>
        Some ((new_data reward ;;
               let! block := new_block now p None in
               mine_response block) s)
    end.
Proof. intros Hl. unfold mine, last_block. by rewrite Hl. Qed.

(** X13. On a ledger state [mine] never raises: either its search is still
    running after [fuel] tests, which is the case exactly when every
    candidate below [fuel] fails [valid_proof] against the last block's
    proof, or it answers with status 200. *)
Theorem mine_pending_or_200 fuel now s :
  reachable s →
  ∃ b,
    last (chain s) = Some b ∧
    (mine fuel now s = None ↔
     ∀ c, 0 ≤ c < Z.of_nat fuel → valid_proof (proof b) c = false) ∧
    (∀ r s', mine fuel now s = Some (r, s') → ∃ v, r = Ok (Json v, 200)).
Proof.
  intros Hs%reachable_consistent.
  destruct (last (chain s)) as [b|] eqn:Hl.
  2: { apply last_None in Hl. by destruct (chain_nonempty s Hs). }
  exists b. split; [done|].
  destruct (proof_of_authority fuel (proof b)) as [p|] eqn:Hp.
  - rewrite (mine_run fuel now s b p Hs Hl Hp). split.
    + split; [done|]. intros Hnone.
      assert (Hn : proof_of_authority fuel (proof b) = None); [|congruence].
      apply proof_of_authority_from_None. intros c Hc. apply Hnone. lia.
    + intros r s' [= <- _]. by eexists.
  - rewrite (mine_cases fuel now s b Hl), Hp. split; [|done].
    split; [|done]. intros _ c Hc.
    unfold proof_of_authority in Hp.
    rewrite proof_of_authority_from_None in Hp. apply Hp. lia.
Qed.

Lemma mine_pending_or_200_witness :
  reachable (Blockchain_new "1.5") ∧
  ∃ b,
    last (chain (Blockchain_new "1.5")) = Some b ∧
    (mine 2%nat "2.5" (Blockchain_new "1.5") = None ↔
     ∀ c, 0 ≤ c < Z.of_nat 2 → valid_proof (proof b) c = false) ∧
    (∀ r s', mine 2%nat "2.5" (Blockchain_new "1.5") = Some (r, s') →
             ∃ v, r = Ok (Json v, 200)).
Proof.
  split; [apply reachable_new|].
  apply (mine_pending_or_200 2%nat "2.5" (Blockchain_new "1.5")).
  apply reachable_new.
Defined.

Lemma required_all values :
  forallb (λ k, dict_mem k values) required = true ↔
  ∀ k, k ∈ required → dict_mem k values = true.
Proof.
  rewrite forallb_forall. split; intros H k Hk; apply H.
  - by apply list_elem_of_In.
  - by apply list_elem_of_In in Hk.
Qed.

Lemma required_missing values :
  (∀ k, k ∈ required → dict_mem k values = true) → missing values = [].
Proof.
  intros H. unfold missing, required_fields. cbn [List.filter].
  rewrite !H; [done|unfold required; repeat constructor..].
Qed.

(** X14. [new_transaction] answers 400 with the text ['Missing values'] as
    soon as one of the six keys it checks, ['data'] among them, is not in
    the request; the ledger is left as it was. *)
Theorem new_transaction_missing_values values s k :
  k ∈ required → dict_mem k values = false →
  new_transaction values s = (Ok (Text "Missing values", 400), s).
Proof.
  intros Hk Hmem. unfold new_transaction.
  destruct (forallb _ required) eqn:Hall; [|done].
  rewrite required_all in Hall. rewrite (Hall k Hk) in Hmem. done.
Qed.

Lemma new_transaction_missing_values_witness :
  "sender_public_key" ∈ required ∧
  dict_mem "sender_public_key" [("users", JStr "alice,bob")] = false ∧
  new_transaction [("users", JStr "alice,bob")] example_pending
  = (Ok (Text "Missing values", 400), example_pending).
Proof.
  assert (Hk : "sender_public_key" ∈ required).
  { unfold required. do 5 right. left. }
  split; [exact Hk|]. split; [done|].
  apply (new_transaction_missing_values _ _ "sender_public_key"); [exact Hk|done].
Defined.

(** X15. When the request holds the six keys, [new_transaction] answers 201:
    no [KeyError] can be raised, the normalized request is appended to the
    pool, the chain is untouched, and the message names the chain length
    plus one. *)
Theorem new_transaction_accepted values s :
  reachable s →
  (∀ k, k ∈ required → dict_mem k values = true) →
  ∃ s',
    new_transaction values s =
      (Ok (Json (JDict [("message",
                         JStr ("Transaction will be added to Block "
                                 +:+ str_of_int (Z.of_nat (length (chain s)) + 1)))]),
           201), s') ∧
    pool s' = pool s ++ [normalized values] ∧
    chain s' = chain s.
Proof.
  intros Hs%reachable_consistent Hall.
  destruct (new_data_complete_pool values s Hs (required_missing _ Hall))
    as (s' & E & _ & Hp & Hc).
  exists s'. split; [|done].
  unfold new_transaction. rewrite (proj2 (required_all values) Hall).
  cbn [negb]. unfold bind. by rewrite E.
Qed.

Lemma new_transaction_accepted_witness :
  reachable (Blockchain_new "1.5") ∧
  (∀ k, k ∈ required → dict_mem k reward = true) ∧
  ∃ s',
    new_transaction reward (Blockchain_new "1.5") =
      (Ok (Json (JDict [("message",
                         JStr "Transaction will be added to Block 2")]),
           201), s') ∧
    pool s' = pool (Blockchain_new "1.5") ++ [normalized reward] ∧
    chain s' = chain (Blockchain_new "1.5").
Proof.
  assert (Hall : ∀ k, k ∈ required → dict_mem k reward = true).
  { apply required_all. reflexivity. }
  split; [apply reachable_new|]. split; [exact Hall|].
  apply (new_transaction_accepted reward (Blockchain_new "1.5"));
    [apply reachable_new|exact Hall].
Defined.

(** X16. The route is stricter than the method: a request with the five
    required fields but without ['data'] is refused with 400 and changes
    nothing, although [new_data] itself accepts the same dict and stores it
    with the default [[]] for ['data']. *)
Theorem new_transaction_requires_data values s :
  reachable s → missing values = [] → dict_mem "data" values = false →
  new_transaction values s = (Ok (Text "Missing values", 400), s) ∧
  ∃ n s' r,
    new_data values s = (Ok n, s') ∧
    pool s' = pool s ++ [r] ∧
    dict_lookup "data" r = Some (JList []).
Proof.
  intros Hs%reachable_consistent Hm Hdata. split.
  - unfold new_transaction, required. cbn [forallb]. by rewrite Hdata, andb_false_r.
  - destruct (new_data_complete_pool values s Hs Hm) as (s' & E & _ & Hp & _).
    eexists _, s', _. split; [exact E|]. split; [exact Hp|].
    unfold dict_mem in Hdata.
    unfold normalized, schema_fields. cbn [fmap list_fmap dict_lookup].
    cbn [String.eqb Ascii.eqb Bool.eqb]. unfold dict_get at 1.
    by destruct (dict_lookup "data" values).
Qed.

Lemma new_transaction_requires_data_witness :
  reachable (Blockchain_new "1.5") ∧
  missing example_session = [] ∧
  dict_mem "data" example_session = false ∧
  new_transaction example_session (Blockchain_new "1.5")
  = (Ok (Text "Missing values", 400), Blockchain_new "1.5") ∧
  ∃ n s' r,
    new_data example_session (Blockchain_new "1.5") = (Ok n, s') ∧
    pool s' = pool (Blockchain_new "1.5") ++ [r] ∧
    dict_lookup "data" r = Some (JList []).
Proof.
  split; [apply reachable_new|]. split; [done|]. split; [done|].
  apply (new_transaction_requires_data example_session (Blockchain_new "1.5"));
    [apply reachable_new|done..].
Defined.

(** X17. [full_chain] answers 200 with every block of the chain in chain
    order and a ['length'] that is the number of blocks, at least 1 and
    equal to the index of the last block; the ledger is left as it was. *)
Theorem full_chain_reports s :
  reachable s →
  ∃ blocks n,
    full_chain s =
      (Ok (Json (JDict [("chain", JList blocks); ("length", JInt n)]), 200), s) ∧
    blocks = block_json (store s) <$> chain s ∧
    n = Z.of_nat (length blocks) ∧
    1 ≤ n ∧
    ∃ b, last (chain s) = Some b ∧ index b = n.
Proof.
  intros Hs%reachable_consistent.
  eexists _, _. split; [reflexivity|]. split; [done|].
  rewrite length_fmap. split; [done|].
  pose proof (chain_nonempty s Hs) as Hne.
  destruct (last (chain s)) as [b|] eqn:Hl; [|by apply last_None in Hl].
  split; [destruct (chain s); [done|simpl; lia]|].
  exists b. split; [done|]. rewrite last_lookup in Hl.
  rewrite (index_position s Hs _ _ Hl).
  destruct (chain s); [done|]. simpl. lia.
Qed.

Lemma full_chain_reports_witness :
  reachable example_ledger ∧
  ∃ blocks n,
    full_chain example_ledger =
      (Ok (Json (JDict [("chain", JList blocks); ("length", JInt n)]), 200),
       example_ledger) ∧
    blocks = block_json (store example_ledger) <$> chain example_ledger ∧
    n = Z.of_nat (length blocks) ∧
    1 ≤ n ∧
    ∃ b, last (chain example_ledger) = Some b ∧ index b = n.
Proof.
  split; [exact example_ledger_reachable|].
  apply (full_chain_reports example_ledger). exact example_ledger_reachable.
Defined.

Lemma new_transaction_state values s :
  (new_transaction values s).2 = s ∨
  (new_transaction values s).2 = (new_data values s).2.
Proof.
  unfold new_transaction. destruct (forallb _ required); [|by left].
  right. cbn [negb]. unfold bind. by destruct (new_data values s) as [[n|e] s'].
Qed.

Lemma mine_state fuel now s r s' :
  consistent s → mine fuel now s = Some (r, s') →
  ∃ b p,
    last (chain s) = Some b ∧
    proof_of_authority fuel (proof b) = Some p ∧
    s' = (new_block now p None (new_data reward s).2).2 ∧
    s' = mkBlockchain
           (alter (λ xs, xs ++ [reward]) (current_data s) (store s) ++ [[]])
           (chain s ++ [mkBlock (Z.of_nat (length (chain s)) + 1) now
                                (current_data s) p
                                (hash (block_json (store s) b))])
           (length (store s)).
Proof.
  intros Hs Hmine.
  destruct (last (chain s)) as [b|] eqn:Hl.
  2: { apply last_None in Hl. by destruct (chain_nonempty s Hs). }
  destruct (proof_of_authority fuel (proof b)) as [p|] eqn:Hp.
  2: { by rewrite (mine_cases fuel now s b Hl), Hp in Hmine. }
  rewrite (mine_run fuel now s b p Hs Hl Hp) in Hmine.
  injection Hmine as _ <-. exists b, p. split; [done|]. split; [done|].
  split; [|done]. by rewrite (mine_run_state now s b p Hs Hl).
Qed.

Lemma served_reachable s : served s → reachable s.
Proof.
  induction 1 as [now|s fuel now r s' _ IH Hmine|s values _ IH|s _ IH].
  - apply reachable_new.
  - destruct (mine_state fuel now s r s' (reachable_consistent s IH) Hmine)
      as (b & p & _ & _ & -> & _).
    by apply reachable_new_block, reachable_new_data.
  - destruct (new_transaction_state values s) as [-> | ->]; [done|].
    by apply reachable_new_data.
  - done.
Qed.

Lemma example_served : served (new_transaction reward (Blockchain_new "1.5")).2.
Proof. apply served_new_transaction, served_start. Qed.

(** X18. Every state the three routes produce is a ledger state: the routes
    change the ledger only through [new_data] and [new_block] with only a
    proof, so the served chain is never empty and is hash-linked. *)
Theorem served_is_ledger_state s :
  served s →
  reachable s ∧
  chain s ≠ [] ∧
  ∀ i a b, chain s !! i = Some a → chain s !! S i = Some b →
           previous_hash b = hash (block_json (store s) a).
Proof.
  intros Hs%served_reachable. split; [done|].
  apply reachable_consistent in Hs. split; [apply Hs|apply (chain_linked s Hs)].
Qed.

Lemma served_is_ledger_state_witness :
  served (new_transaction reward (Blockchain_new "1.5")).2 ∧
  reachable (new_transaction reward (Blockchain_new "1.5")).2 ∧
  chain (new_transaction reward (Blockchain_new "1.5")).2 ≠ [] ∧
  ∀ i a b,
    chain (new_transaction reward (Blockchain_new "1.5")).2 !! i = Some a →
    chain (new_transaction reward (Blockchain_new "1.5")).2 !! S i = Some b →
    previous_hash b
    = hash (block_json (store (new_transaction reward (Blockchain_new "1.5")).2) a).
Proof.
  split; [exact example_served|].
  apply (served_is_ledger_state (new_transaction reward (Blockchain_new "1.5")).2).
  exact example_served.
Defined.

(** X19. On the served ledger every block after the genesis block was forged
    by [mine]: its proof passes [valid_proof] against the proof of the block
    before it, and its last record is the reward record, so no such block is
    empty. *)
Theorem served_blocks_are_mined s i a b :
  served s → chain s !! i = Some a → chain s !! S i = Some b →
  valid_proof (proof a) (proof b) = true ∧
  last (block_data s b) = Some reward.
Proof.
  intros Hs. revert i a b.
  induction Hs as [now|s fuel now r s' Hs IH Hmine|s values Hs IH|s Hs IH];
    intros i a b Ha Hb.
  - rewrite Blockchain_new_eq in Hb. by destruct i.
  - pose proof (served_reachable s Hs) as Hr.
    pose proof (reachable_consistent s Hr) as Hc.
    destruct (mine_state fuel now s r s' Hc Hmine)
      as (lb & p & Hl & Hp & Hev & Hst).
    assert (Hframe : ∀ b', b' ∈ chain s →
                           store s' !! data b' = store s !! data b').
    { rewrite Hev. apply (evolves_frame s _ Hr), mine_run_evolves. }
    destruct (mine_run_pools s
                (mkBlock (Z.of_nat (length (chain s)) + 1) now (current_data s)
                         p (hash (block_json (store s) lb)))
                (chain s' ) Hc eq_refl) as [Hdata _].
    rewrite Hst in Ha, Hb. cbn [chain] in Ha, Hb.
    apply lookup_snoc_Some in Hb as [[Hi Hb]|[Hi <-]].
    + apply lookup_snoc_Some in Ha as [[_ Ha]|[-> _]]; [|lia].
      destruct (IH i a b Ha Hb) as [Hv Hlast]. split; [done|].
      unfold block_data, deref in *.
      by rewrite (Hframe b (list_elem_of_lookup_2 _ _ _ Hb)).
    + apply lookup_snoc_Some in Ha as [[_ Ha]|[-> _]]; [|lia].
      rewrite last_lookup, <- Hi in Hl. cbn [Init.Nat.pred] in Hl.
      assert (a = lb) as -> by congruence. cbn [proof]. split.
      * apply proof_of_authority_from_Some in Hp. apply Hp.
      * unfold block_data in *. rewrite Hst. cbn [store data] in *.
        rewrite Hdata. by rewrite last_snoc.
  - pose proof (reachable_consistent s (served_reachable s Hs)) as Hc.
    assert (Hch : chain (new_transaction values s).2 = chain s).
    { destruct (new_transaction_state values s) as [-> | ->]; [done|].
      destruct (new_data_state values s) as [->|[rec ->]]; done. }
    rewrite Hch in Ha, Hb.
    destruct (IH i a b Ha Hb) as [Hv Hlast]. split; [done|].
    assert (Hst : store (new_transaction values s).2 !! data b
                  = store s !! data b).
    { destruct (new_transaction_state values s) as [-> | ->]; [done|].
      apply (new_data_frame values s b Hc).
      by eapply list_elem_of_lookup_2. }
    unfold block_data, deref in *. by rewrite Hst.
  - exact (IH i a b Ha Hb).
Qed.

(** The served ledger after one [mine] from the start, given what the search
    returns. *)
Lemma mined_from_start fuel p now0 now :
  proof_of_authority fuel 100 = Some p →
  ∃ r s' a b,
    mine fuel now (Blockchain_new now0) = Some (r, s') ∧
    served s' ∧
    chain s' !! 0%nat = Some a ∧
    chain s' !! 1%nat = Some b.
Proof.
  intros Hp.
  pose proof (mine_run fuel now (Blockchain_new now0)
                (mkBlock 1 now0 0%nat 100 "1") p
                (consistent_new now0) eq_refl Hp) as Hrun.
  cbv zeta in Hrun. eexists _, _, _, _. split; [exact Hrun|]. split.
  - eapply served_mine; [apply served_start|exact Hrun].
  - split; reflexivity.
Qed.

Lemma served_blocks_are_mined_witness :
  ∃ r s' a b,
    mine (S (Z.to_nat 35293)) "2.5" (Blockchain_new "1.5") = Some (r, s') ∧
    served s' ∧
    chain s' !! 0%nat = Some a ∧
    chain s' !! 1%nat = Some b ∧
    valid_proof (proof a) (proof b) = true ∧
    last (block_data s' b) = Some reward.
Proof.
  destruct (proof_of_authority_from_terminates (Z.to_nat 35293) 100 0)
    as [p Hp].
  { vm_compute. reflexivity. }
  specialize (Hp (S (Z.to_nat 35293)) (le_n _)).
  destruct (mined_from_start (S (Z.to_nat 35293)) p "1.5" "2.5" Hp)
    as (r & s' & a & b & Hmine & Hserved & Ha & Hb).
  exists r, s', a, b. split; [exact Hmine|]. split; [exact Hserved|].
  split; [exact Ha|]. split; [exact Hb|].
  exact (served_blocks_are_mined s' 0%nat a b Hserved Ha Hb).
Defined.

(** * The text [valid_proof] hashes *)

(** ** Decimal numerals *)

Example numeral_value_examples :
  numeral_value "100" = Some 100 ∧ numeral_value "-7" = Some (-7) ∧
  numeral_value "0" = Some 0 ∧ numeral_value "007" = None ∧
  numeral_value "-0" = None ∧ numeral_value "-" = None ∧
  numeral_value "1a" = None ∧ numeral_value "" = None.
Proof. repeat split; reflexivity. Qed.

Ltac eval_digit :=
  match goal with
  | |- context [digit_value ?c] =>
      let v := eval vm_compute in (digit_value c) in
      change (digit_value c) with v
  end.

(** Reading the digits the library printed, from a positive accumulator. *)
Lemma digits_value_acc d : ∀ acc : positive,
  digits_value (Z.pos acc) (NilEmpty.string_of_uint d)
  = Some (Z.pos (Pos.of_uint_acc d acc)).
Proof.
  induction d; intros acc;
    cbn [NilEmpty.string_of_uint digits_value Pos.of_uint_acc]; [done|..].
  all: eval_digit; cbv iota beta.
  all: rewrite <- IHd; f_equal; lia.
Qed.

Lemma digits_value_uint d :
  digits_value 0 (NilEmpty.string_of_uint d) = Some (Z.of_N (Pos.of_uint d)).
Proof.
  induction d; cbn [NilEmpty.string_of_uint digits_value Pos.of_uint]; [done|..].
  all: eval_digit; cbv iota beta.
  - exact IHd.
  - apply (digits_value_acc d 1).
  - apply (digits_value_acc d 2).
  - apply (digits_value_acc d 3).
  - apply (digits_value_acc d 4).
  - apply (digits_value_acc d 5).
  - apply (digits_value_acc d 6).
  - apply (digits_value_acc d 7).
  - apply (digits_value_acc d 8).
  - apply (digits_value_acc d 9).
Qed.

Lemma digit_value_uint_of_char c k d :
  digit_value c = Some k → ∃ d', uint_of_char c (Some d) = Some d'.
Proof.
  destruct c as [[] [] [] [] [] [] [] []]; try discriminate; intros _;
    by eexists.
Qed.

Lemma digits_value_parses s : ∀ acc v,
  digits_value acc s = Some v → ∃ d, NilEmpty.uint_of_string s = Some d.
Proof.
  induction s as [|c s IH]; intros acc v;
    cbn [digits_value NilEmpty.uint_of_string].
  - by eexists.
  - destruct (digit_value c) as [k|] eqn:Hc; [|done]. intros Hv.
    destruct (IH _ _ Hv) as [d ->]. by eapply digit_value_uint_of_char.
Qed.

Lemma digits_value_ascii s : ∀ acc v,
  digits_value acc s = Some v →
  Forall (λ c, (N_of_ascii c < 128)%N) (list_ascii_of_string s).
Proof.
  induction s as [|c s IH]; intros acc v;
    cbn [digits_value list_ascii_of_string].
  - constructor.
  - destruct (digit_value c) as [k|] eqn:Hc; [|done]. intros Hv.
    constructor; [|by eapply IH]. unfold digit_value in Hc.
    destruct (_ && _) eqn:Hr; [|done]. lia.
Qed.

(** The numerals of the library's printer are canonical. *)
Lemma string_of_uint_canonical d :
  d ≠ Decimal.Nil → Decimal.unorm d = d →
  canonical_digits (NilEmpty.string_of_uint d) = true ∧
  (d ≠ Decimal.zero → String.eqb (NilEmpty.string_of_uint d) "0" = false) ∧
  ∃ c s, NilEmpty.string_of_uint d = String c s ∧ Ascii.eqb c "-" = false.
Proof.
  intros Hnil Hnorm. destruct d as [|d|d|d|d|d|d|d|d|d|d]; try done;
    try (split; [done|]; split; [done|]; by eexists _, _).
  destruct d as [|d|d|d|d|d|d|d|d|d|d].
  - split; [done|]. split; [done|]. by eexists _, _.
  - exfalso. rewrite !unorm_D0 in Hnorm. unfold Decimal.unorm in Hnorm.
    pose proof (nzhead_nonzero d (Decimal.D0 d)) as Hz.
    destruct (Decimal.nzhead d); done.
  - done. - done. - done. - done. - done. - done. - done. - done. - done.
Qed.

Lemma canonical_parse s d :
  NilEmpty.uint_of_string s = Some d → canonical_digits s = true →
  d ≠ Decimal.Nil ∧ Decimal.unorm d = d ∧
  (String.eqb s "0" = false → Decimal.nzhead d = d).
Proof.
  destruct s as [|c s]; [done|].
  cbn [NilEmpty.uint_of_string canonical_digits].
  destruct (NilEmpty.uint_of_string s) as [d'|] eqn:Hs; [|done].
  intros H%uint_of_char_spec Hcan.
  decompose [or and] H; subst; clear H; try done.
  cbn in Hcan. apply String.eqb_eq in Hcan as ->.
  injection Hs as <-. done.
Qed.

Lemma to_uint_normal p : Decimal.unorm (Pos.to_uint p) = Pos.to_uint p.
Proof.
  rewrite <- (DecimalPos.Unsigned.to_of (Pos.to_uint p)).
  by rewrite DecimalPos.Unsigned.of_to.
Qed.

Lemma string_of_uint_nonnil d :
  d ≠ Decimal.Nil → NilZero.string_of_uint d = NilEmpty.string_of_uint d.
Proof. by destruct d. Qed.

(** [str(n)] is a decimal numeral, and it denotes [n]. *)
Lemma numeral_value_str_of_int n : numeral_value (str_of_int n) = Some n.
Proof.
  unfold str_of_int. destruct n as [|p|p]; [done|..];
    cbn [Z.to_int NilZero.string_of_int];
    pose proof (DecimalPos.Unsigned.to_uint_nonnil p) as Hnil;
    pose proof (DecimalPos.Unsigned.to_uint_nonzero p) as Hnz;
    destruct (string_of_uint_canonical _ Hnil (to_uint_normal p))
      as (Hcan & Hz & c & s & Hs & Hc);
    rewrite (string_of_uint_nonnil _ Hnil).
  - unfold numeral_value. rewrite Hs, Hc, <- Hs, Hcan.
    by rewrite digits_value_uint, DecimalPos.Unsigned.of_to.
  - unfold numeral_value. cbn [Ascii.eqb Bool.eqb]. rewrite Hcan, (Hz Hnz).
    by rewrite digits_value_uint, DecimalPos.Unsigned.of_to.
Qed.

(** A number has one decimal numeral only, the text [str] prints. *)
Lemma numeral_value_unique a n : numeral_value a = Some n → a = str_of_int n.
Proof.
  destruct a as [|c s]; [done|]. unfold numeral_value, str_of_int.
  destruct (Ascii.eqb_spec c "-") as [->|Hc].
  - destruct (canonical_digits s) eqn:Hcan; [|done].
    destruct (String.eqb s "0") eqn:Hz; [done|]. cbn [andb negb].
    destruct (digits_value 0 s) as [v|] eqn:Hv; [|done]. intros [= <-].
    destruct (digits_value_parses s 0 v Hv) as [d Hd].
    destruct (canonical_parse s d Hd Hcan) as (Hnil & Hnorm & Hhead).
    specialize (Hhead Hz).
    pose proof (NilEmpty.sus s d Hd) as Hs.
    rewrite <- Hs, digits_value_uint in Hv. injection Hv as <-.
    change (- Z.of_N (Pos.of_uint d)) with (Z.of_int (Decimal.Neg d)).
    rewrite DecimalZ.to_of. cbn [Decimal.norm]. rewrite Hhead.
    destruct d; [done|..]; cbn [NilZero.string_of_int];
      by rewrite string_of_uint_nonnil, Hs.
  - destruct (canonical_digits (String c s)) eqn:Hcan; [|done].
    intros Hv.
    destruct (digits_value_parses _ 0 n Hv) as [d Hd].
    destruct (canonical_parse _ d Hd Hcan) as (Hnil & Hnorm & _).
    pose proof (NilEmpty.sus _ d Hd) as Hs.
    rewrite <- Hs, digits_value_uint in Hv. injection Hv as <-.
    change (Z.of_N (Pos.of_uint d)) with (Z.of_int (Decimal.Pos d)).
    rewrite DecimalZ.to_of. cbn [Decimal.norm NilZero.string_of_int].
    by rewrite Hnorm, string_of_uint_nonnil, Hs.
Qed.

Lemma numeral_value_ascii a n :
  numeral_value a = Some n →
  Forall (λ c, (N_of_ascii c < 128)%N) (list_ascii_of_string a).
Proof.
  destruct a as [|c s]; [done|]. unfold numeral_value.
  destruct (Ascii.eqb_spec c "-") as [->|Hc].
  - destruct (_ && _); [|done].
    destruct (digits_value 0 s) as [v|] eqn:Hv; [|done]. intros _.
    cbn [list_ascii_of_string]. constructor; [done|].
    by eapply digits_value_ascii.
  - destruct (canonical_digits _); [|done]. apply digits_value_ascii.
Qed.

(** ** The bytes of an ASCII text *)

Lemma byte_of_N_of_ascii c : byte_of_N (N_of_ascii c) = byte_of_ascii c.
Proof. by destruct c as [[] [] [] [] [] [] [] []]. Qed.

(** [encode] gives one byte for each ASCII character, the character's code. *)
Lemma encode_ascii s :
  Forall (λ c, (N_of_ascii c < 128)%N) (list_ascii_of_string s) →
  encode s = list_byte_of_string s.
Proof.
  unfold encode, list_byte_of_string.
  induction (list_ascii_of_string s) as [|c l IH]; [done|].
  intros [Hc Hl]%Forall_cons. cbn [flat_map List.map]. rewrite (IH Hl).
  unfold utf8_char. apply N.ltb_lt in Hc.
  by rewrite Hc, byte_of_N_of_ascii.
Qed.

(** The bytes [valid_proof] hashes: the codes of the characters of the two
    numerals, one after the other. *)
Lemma guess_bytes last_proof proof a b :
  numeral_value a = Some last_proof → numeral_value b = Some proof →
  encode (str_of_int last_proof +:+ str_of_int proof)
  = list_byte_of_string (a +:+ b).
Proof.
  intros Ha Hb.
  rewrite <- (numeral_value_unique a _ Ha), <- (numeral_value_unique b _ Hb).
  apply encode_ascii. rewrite list_ascii_of_string_append.
  apply Forall_app. split; by eapply numeral_value_ascii.
Qed.

(** C4. Every integer has a decimal numeral, and for the decimal numerals
    [a] of [last_proof] and [b] of [proof], [valid_proof(last_proof, proof)]
    is true exactly when the hexadecimal SHA-256 digest of the bytes of the
    text [a] followed by [b], one byte per character, begins with the four
    characters [0000]. *)
Theorem valid_proof_iff last_proof proof :
  (∃ a b, numeral_value a = Some last_proof ∧ numeral_value b = Some proof) ∧
  ∀ a b,
    numeral_value a = Some last_proof → numeral_value b = Some proof →
    (valid_proof last_proof proof = true ↔
     ∃ rest,
       SHA256.hexdigest (list_byte_of_string (a +:+ b)) = "0000" +:+ rest).
Proof.
  split.
  - exists (str_of_int last_proof), (str_of_int proof).
    split; apply numeral_value_str_of_int.
  - intros a b Ha Hb. unfold valid_proof.
    rewrite (guess_bytes last_proof proof a b Ha Hb).
    apply eqb_substring_0000.
Qed.

Lemma valid_proof_iff_witness :
  numeral_value "100" = Some 100 ∧
  numeral_value "35293" = Some 35293 ∧
  numeral_value "0" = Some 0 ∧
  SHA256.hexdigest (list_byte_of_string "10035293")
  = "0000c415de5ceea33c02daa85a1c218ecca1b1c9e9864ed34d183597844de8e2" ∧
  valid_proof 100 35293 = true ∧
  SHA256.hexdigest (list_byte_of_string "1000")
  = "40510175845988f13f6162ed8526f0b09f73384467fa855e1e79b44a56562a58" ∧
  valid_proof 100 0 = false.
Proof.
  assert (H1 : SHA256.hexdigest (list_byte_of_string "10035293")
               = "0000c415de5ceea33c02daa85a1c218ecca1b1c9e9864ed34d183597844de8e2")
    by (vm_compute; reflexivity).
  assert (H2 : SHA256.hexdigest (list_byte_of_string "1000")
               = "40510175845988f13f6162ed8526f0b09f73384467fa855e1e79b44a56562a58")
    by (vm_compute; reflexivity).
  split; [reflexivity|]. split; [reflexivity|]. split; [reflexivity|].
  split; [exact H1|]. split; [|split; [exact H2|]].
  - apply (proj2 (valid_proof_iff 100 35293) "100" "35293" eq_refl eq_refl).
    exists "c415de5ceea33c02daa85a1c218ecca1b1c9e9864ed34d183597844de8e2".
    exact H1.
  - destruct (valid_proof 100 0) eqn:E; [|reflexivity].
    apply (proj2 (valid_proof_iff 100 0) "100" "0" eq_refl eq_refl) in E
      as [rest Hrest].
    change ("100" +:+ "0") with "1000" in Hrest. rewrite H2 in Hrest.
    discriminate Hrest.
Defined.
